(** * Grappling_Chainz: position graph and narrative session

    A shallow embedding of [bjj_domain.py] (domain records and [BJJGraph])
    and of [narrative_engine.py] ([NarrativeSession], [NarrativeEngine]),
    with the properties of the graph queries and of the session walk,
    followed by the text output of the engine, the sample graph and the
    interactive loop of [cli.py].

    Python dictionaries iterate in insertion order and an assignment to an
    existing key keeps the key's place, so the dictionaries whose iteration
    order the program observes (the adjacency of the [networkx.DiGraph]) are
    ordered association lists; the [positions] dictionary, only ever read by
    key, is a [gmap]. A raised exception is [None] in the [option] monad. *)

From Stdlib Require Import QArith.
From stdpp Require Import gmap strings list fin_maps sorting pretty.

(** ** Domain records ([bjj_domain.py], lines 14-60) *)

Inductive DecisionQuality := EXCELLENT | GOOD | POOR | FAILURE.

Record DrillPrescription := {
  drill_name : string;
  drill_description : string;
  repetitions : Z;
  focus_points : list string
}.

Record Position := {
  id : string;
  name : string;
  description : string;
  advantages : list string;
  common_mistakes : list string;
  default_drills : list DrillPrescription
}.

(** [probability] is a Python float documented as lying in 0.0 .. 1.0; every
    finite float is a rational and [<] on finite floats is [<] on those
    rationals, so the field is a [Q]. *)
Record Transition := {
  from_position : string;
  to_position : string;
  action : string;
  opponent_reaction : string;
  probability : Q;
  decision_quality : DecisionQuality;
  drill_prescription : option DrillPrescription
}.

(** ** Insertion-ordered dictionaries *)

Module OrderedDict.
Section ordered_dict.
Context {V : Type}.

Definition t := list (string * V).

(** [d.get(k)] *)
Fixpoint get (k : string) (d : list (string * V)) : option V :=
  match d with
  | [] => None
  | (k', v) :: d' => if decide (k' = k) then Some v else get k d'
  end.

(** [k in d] *)
Definition contains (k : string) (d : list (string * V)) : bool :=
  bool_decide (is_Some (get k d)).

(** [d[k] = v]: an existing key keeps its place, a new key goes last. *)
Fixpoint set (k : string) (v : V) (d : list (string * V)) : list (string * V) :=
  match d with
  | [] => [(k, v)]
  | (k', v') :: d' =>
      if decide (k' = k) then (k', v) :: d' else (k', v') :: set k v d'
  end.

(** [d.items()] *)
Definition items (d : list (string * V)) : list (string * V) := d.

Definition keys (d : list (string * V)) : list string := d.*1.
End ordered_dict.
Arguments t : clear implicits.
End OrderedDict.

(** ** The part of [networkx.DiGraph] that [BJJGraph] uses

    A directed graph without parallel edges: per node an attribute dictionary
    and an ordered dictionary from successor to the attribute dictionary of
    the one edge to it. [add_edge] on an existing pair updates that edge's
    attributes in place. The predecessor index, never read here, is left
    out. *)

Module NX.

Record entry := {
  node_attr : gmap string Position;
  adj : OrderedDict.t (gmap string Transition)
}.

Definition DiGraph := OrderedDict.t entry.

(** [nx.DiGraph()] *)
Definition empty : DiGraph := [].

(** [n in G] *)
Definition contains (G : DiGraph) (n : string) : bool :=
  OrderedDict.contains n G.

(** [G.add_node(n, **attr)] *)
Definition add_node (n : string) (attr : gmap string Position) (G : DiGraph)
  : DiGraph :=
  match OrderedDict.get n G with
  | None => OrderedDict.set n {| node_attr := attr; adj := [] |} G
  | Some e =>
      OrderedDict.set n {| node_attr := attr ∪ node_attr e; adj := adj e |} G
  end.

(** a node first met as an end point of an edge gets empty attributes *)
Definition touch (n : string) (G : DiGraph) : DiGraph :=
  if contains G n then G
  else OrderedDict.set n {| node_attr := ∅; adj := [] |} G.

(** [G.add_edge(u, v, **attr)] *)
Definition add_edge (u v : string) (attr : gmap string Transition)
  (G : DiGraph) : DiGraph :=
  let G := touch v (touch u G) in
  match OrderedDict.get u G with
  | None => G
  | Some e =>
      let datadict := default ∅ (OrderedDict.get v (adj e)) in
      OrderedDict.set u
        {| node_attr := node_attr e;
           adj := OrderedDict.set v (attr ∪ datadict) (adj e) |} G
  end.

(** [G.edges(n, data=True)] for a node [n]; [None] when [n] is no node *)
Definition edges (G : DiGraph) (n : string)
  : option (list (string * string * gmap string Transition)) :=
  e ← OrderedDict.get n G;
  Some ((λ '(nbr, dd), (n, nbr, dd)) <$> OrderedDict.items (adj e)).

End NX.

(** ** [BJJGraph] ([bjj_domain.py], lines 63-104) *)

Record BJJGraph := {
  graph : NX.DiGraph;
  positions : gmap string Position;
  transitions : list Transition
}.

(** [BJJGraph.__init__] *)
Definition BJJGraph_init : BJJGraph :=
  {| graph := NX.empty; positions := ∅; transitions := [] |}.

Definition add_position (position : Position) (self : BJJGraph) : BJJGraph :=
  {| graph := NX.add_node (id position) {[ "data"%string := position ]} (graph self);
     positions := <[ id position := position ]> (positions self);
     transitions := transitions self |}.

Definition add_transition (transition : Transition) (self : BJJGraph)
  : BJJGraph :=
  {| graph := NX.add_edge (from_position transition) (to_position transition)
                {[ "data"%string := transition ]} (graph self);
     positions := positions self;
     transitions := transitions self ++ [transition] |}.

Definition get_position (self : BJJGraph) (position_id : string)
  : option Position :=
  positions self !! position_id.

(** [edge_data['data']] raises [KeyError] on an edge without that attribute,
    hence the [option]. *)
Definition get_transitions_from (self : BJJGraph) (position_id : string)
  : option (list Transition) :=
  if NX.contains (graph self) position_id then
    es ← NX.edges (graph self) position_id;
    mapM (λ '(_, to_pos, edge_data), edge_data !! "data"%string) es
  else Some [].

Definition get_drill_for_transition (self : BJJGraph) (transition : Transition)
  : option DrillPrescription :=
  drill_prescription transition.

Definition get_position_drills (self : BJJGraph) (position_id : string)
  : list DrillPrescription :=
  match get_position self position_id with
  | Some position => default_drills position
  | None => []
  end.

(** A graph is populated by a sequence of the two mutators. *)
Inductive GraphOp :=
| AddPosition (position : Position)
| AddTransition (transition : Transition).

Definition apply_op (g : BJJGraph) (op : GraphOp) : BJJGraph :=
  match op with
  | AddPosition p => add_position p g
  | AddTransition t => add_transition t g
  end.

Definition build (ops : list GraphOp) : BJJGraph :=
  foldl apply_op BJJGraph_init ops.

(** ** The built-in [sorted(iterable, key=..., reverse=...)]

    Python's sort is stable and compares keys with [<] only; with
    [reverse=True] it reverses the list, sorts it and reverses the result,
    so equal keys keep their original order in both directions. *)

Definition Qltb (x y : Q) : bool := negb (Qle_bool y x).

Section sorted.
Context {A : Type} (key : A → Q).

Fixpoint insert_stable (x : A) (l : list A) : list A :=
  match l with
  | [] => [x]
  | y :: l' =>
      if Qltb (key y) (key x) then y :: insert_stable x l' else x :: y :: l'
  end.

Definition sort_stable (l : list A) : list A := foldr insert_stable [] l.

Definition sorted (rev_flag : bool) (l : list A) : list A :=
  if rev_flag then reverse (sort_stable (reverse l)) else sort_stable l.
End sorted.

(** ** A state monad for the methods that mutate [self] *)

Definition State (S A : Type) : Type := S → A * S.

#[global] Instance state_ret {S} : MRet (State S) := λ A a s, (a, s).
#[global] Instance state_bind {S} : MBind (State S) :=
  λ A B f m s, let '(a, s') := m s in f a s'.

Definition gets {S A} (f : S → A) : State S A := λ s, (f s, s).
Definition modify {S} (f : S → S) : State S unit := λ s, ((), f s).
Definition exec {S A} (m : State S A) (s : S) : S := (m s).2.
Definition eval {S A} (m : State S A) (s : S) : A := (m s).1.

(** ** [NarrativeSession] ([narrative_engine.py], lines 13-58) *)

Record NarrativeSession := {
  session_graph : BJJGraph;
  current_position : string;
  history : list (string * string);
  drills_earned : list DrillPrescription
}.

(** [NarrativeSession.__init__] *)
Definition NarrativeSession_init (graph : BJJGraph) (starting_position : string)
  : NarrativeSession :=
  {| session_graph := graph;
     current_position := starting_position;
     history := [];
     drills_earned := [] |}.

Definition history_append (x : string * string) (s : NarrativeSession)
  : NarrativeSession :=
  {| session_graph := session_graph s;
     current_position := current_position s;
     history := history s ++ [x];
     drills_earned := drills_earned s |}.

Definition drills_earned_append (d : DrillPrescription) (s : NarrativeSession)
  : NarrativeSession :=
  {| session_graph := session_graph s;
     current_position := current_position s;
     history := history s;
     drills_earned := drills_earned s ++ [d] |}.

Definition set_current_position (k : string) (s : NarrativeSession)
  : NarrativeSession :=
  {| session_graph := session_graph s;
     current_position := k;
     history := history s;
     drills_earned := drills_earned s |}.

Definition get_current_position (self : NarrativeSession) : option Position :=
  get_position (session_graph self) (current_position self).

Definition get_available_actions (self : NarrativeSession)
  : option (list Transition) :=
  transitions ← get_transitions_from (session_graph self) (current_position self);
  Some (sorted probability true transitions).

(** A [DrillPrescription] object is always truthy, so [if drill:] tests for
    [None] only. *)
Definition take_action (transition : Transition)
  : State NarrativeSession (option Position * option DrillPrescription) :=
  cur ← gets current_position;
  modify (history_append (cur, action transition));;
  g ← gets session_graph;
  let drill := get_drill_for_transition g transition in
  match drill with
  | Some d => modify (drills_earned_append d)
  | None => mret ()
  end;;
  modify (set_current_position (to_position transition));;
  g ← gets session_graph;
  cur ← gets current_position;
  let new_position := get_position g cur in
  mret (new_position, drill).

Record SessionSummary := {
  positions_visited : nat;
  actions_taken : list string;
  total_drills : nat;
  drills : list DrillPrescription
}.

Definition get_session_summary (self : NarrativeSession) : SessionSummary :=
  {| positions_visited := length (history self) + 1;
     actions_taken := (λ '(_, action), action) <$> history self;
     total_drills := length (drills_earned self);
     drills := drills_earned self |}.

(** ** [NarrativeEngine] ([narrative_engine.py], lines 61-69) *)

Record NarrativeEngine := { engine_graph : BJJGraph }.

(** [start_session(self, starting_position="closed_guard")]: [None] is a call
    that leaves the argument out. *)
Definition start_session (self : NarrativeEngine)
  (starting_position : option string) : NarrativeSession :=
  NarrativeSession_init (engine_graph self)
    (default "closed_guard"%string starting_position).

(** The session after the transitions of [ts] were taken in turn. *)
Definition take_actions (ts : list Transition) (s : NarrativeSession)
  : NarrativeSession :=
  foldl (λ s t, exec (take_action t) s) s ts.

(** The sessions a caller can reach: a fresh one, then any [take_action]. *)
Inductive reachable (g : BJJGraph) (start : string) : NarrativeSession → Prop :=
| reachable_init : reachable g start (NarrativeSession_init g start)
| reachable_step s t :
    reachable g start s → reachable g start (exec (take_action t) s).

(** ** Auxiliary notions for the statements *)

(** The transitions a sequence of mutators has added, in order. *)
Definition added_transitions (ops : list GraphOp) : list Transition :=
  omap (λ op, match op with AddTransition t => Some t | _ => None end) ops.

(** The transitions of a list that leave [key], in the order of the list. *)
Definition leaving (key : string) (ts : list Transition) : list Transition :=
  filter (λ t, from_position t = key) ts.

(** What an ordered dictionary keyed by destination retains of a list of
    transitions written to it one after the other: per destination the last
    transition, at the place of the first. *)
Definition last_per_destination (ts : list Transition)
  : OrderedDict.t Transition :=
  foldl (λ d t, OrderedDict.set (to_position t) t d) [] ts.

#[global] Arguments leaving : simpl never.
#[global] Arguments last_per_destination : simpl never.

(** The attribute dictionary [add_transition] attaches to an edge. *)
Definition edge_attrs (kv : string * Transition)
  : string * gmap string Transition :=
  (kv.1, {[ "data"%string := kv.2 ]}).

(** The out-edges recorded for [n], none when [n] is no node. *)
Definition adj_or_empty (G : NX.DiGraph) (n : string)
  : OrderedDict.t (gmap string Transition) :=
  from_option NX.adj [] (OrderedDict.get n G).

(** The link between the adjacency and the transition list that the two
    mutators maintain. *)
Definition graph_inv (g : BJJGraph) : Prop :=
  ∀ u,
    match NX.adj <$> OrderedDict.get u (graph g) with
    | Some out =>
        out = edge_attrs <$> last_per_destination (leaving u (transitions g))
    | None => leaving u (transitions g) = [] ∧ positions g !! u = None
    end.

(** Ascending order of a sort key; [flip (key_le key)] is the descending
    order. *)
Definition key_le {A : Type} (key : A → Q) (x y : A) : Prop :=
  (key x <= key y)%Q.

(** The transitions of a list whose probability equals [p], in order. *)
#[global] Instance Qeq_decision (x y : Q) : Decision (x == y)%Q := Qeq_dec x y.

Definition with_probability (p : Q) (l : list Transition) : list Transition :=
  filter (λ t, (probability t == p)%Q) l.

(** Sample data for the concrete statements. *)
Definition sample_drill (n : string) : DrillPrescription :=
  {| drill_name := n; drill_description := ("practice " +:+ n)%string;
     repetitions := 10; focus_points := ["grips"%string; "hips"%string] |}.

Definition sample_position (k : string) (descr : string) : Position :=
  {| id := k; name := k; description := descr; advantages := [];
     common_mistakes := []; default_drills := [sample_drill "default"] |}.

Definition sample_transition (f t a : string) (p : Q)
  (d : option DrillPrescription) : Transition :=
  {| from_position := f; to_position := t; action := a;
     opponent_reaction := "reacts"; probability := p;
     decision_quality := GOOD; drill_prescription := d |}.

(** ** Further notions for the graph and the walk *)

(** The positions a sequence of mutators has added, in order. *)
Definition added_positions (ops : list GraphOp) : list Position :=
  omap (λ op, match op with AddPosition p => Some p | _ => None end) ops.

(** The keys in the order of their first occurrence. *)
Fixpoint first_occurrences (l : list string) : list string :=
  match l with
  | [] => []
  | k :: l' => k :: filter (λ k', k' ≠ k) (first_occurrences l')
  end.

(** A walk whose every step takes one of the actions on offer. *)
Inductive offered_walk : NarrativeSession → list Transition → Prop :=
| offered_nil s : offered_walk s []
| offered_cons s t ts out :
    get_available_actions s = Some out →
    t ∈ out →
    offered_walk (exec (take_action t) s) ts →
    offered_walk s (t :: ts).

(** ** Text output ([narrative_engine.py], lines 71-141)

    A Python string is held as its UTF-8 bytes. [format_percent] stands for
    the float format [.0%], which this development does not define; the
    methods never read [self], which is left out. *)

Definition LF : string := String (Ascii.ascii_of_nat 10) EmptyString.

(** [s * n] *)
Fixpoint str_mul (s : string) (n : nat) : string :=
  match n with
  | 0 => EmptyString
  | S n' => s +:+ str_mul s n'
  end.

(** [sep.join(lines)] *)
Definition join (sep : string) (lines : list string) : string :=
  String.concat sep lines.

(** ['='*60] *)
Definition rule : string := str_mul "=" 60.

(** [decision_quality.value.upper()] *)
Definition decision_quality_upper (q : DecisionQuality) : string :=
  match q with
  | EXCELLENT => "EXCELLENT"
  | GOOD => "GOOD"
  | POOR => "POOR"
  | FAILURE => "FAILURE"
  end.

Definition format_position_display (position : Position) : string :=
  join LF
    ([LF +:+ rule;
      "POSITION: " +:+ name position;
      rule;
      LF +:+ description position;
      LF +:+ "Advantages:"]
     ++ ((λ advantage, "  â€¢ " +:+ advantage) <$> advantages position)
     ++ [LF +:+ "Common Mistakes to Avoid:"]
     ++ ((λ mistake, "  âš  " +:+ mistake) <$> common_mistakes position)).

(** The four lines of the menu entry numbered [i]. *)
Definition transition_lines (format_percent : Q → string) (i : nat)
  (transition : Transition) : list string :=
  [LF +:+ "[" +:+ pretty i +:+ "] " +:+ action transition;
   "    Likely Reaction: " +:+ opponent_reaction transition;
   "    Success Probability: " +:+ format_percent (probability transition);
   "    Decision Quality: "
     +:+ decision_quality_upper (decision_quality transition)].

(** [enumerate(transitions, 1)] numbers the entries from one. *)
Definition format_transitions_display (format_percent : Q → string)
  (transitions : list Transition) : string :=
  match transitions with
  | [] => LF +:+ "No transitions available from this position."
  | _ =>
      join LF
        ([LF +:+ rule; "AVAILABLE ACTIONS:"; rule]
         ++ mjoin (imap (λ i, transition_lines format_percent (S i))
                     transitions))
  end.

Definition format_drill_display (drill : option DrillPrescription) : string :=
  match drill with
  | None => LF +:+ "No specific drill prescribed for this transition."
  | Some drill =>
      join LF
        ([LF +:+ rule;
          "DRILL PRESCRIPTION:";
          rule;
          LF +:+ "ðŸ“‹ " +:+ drill_name drill;
          LF +:+ drill_description drill;
          LF +:+ "Repetitions: " +:+ pretty (repetitions drill);
          LF +:+ "Focus Points:"]
         ++ ((λ point, "  âœ“ " +:+ point) <$> focus_points drill))
  end.

(** The three lines of the entry numbered [i] of the drill program. *)
Definition drill_lines (i : nat) (drill : DrillPrescription) : list string :=
  [LF +:+ pretty i +:+ ". " +:+ drill_name drill;
   "   â€¢ " +:+ drill_description drill;
   "   â€¢ " +:+ pretty (repetitions drill) +:+ " repetitions"].

Definition format_session_summary (session : NarrativeSession) : string :=
  let summary := get_session_summary session in
  join LF
    ([LF +:+ rule;
      "SESSION SUMMARY";
      rule;
      LF +:+ "Positions Explored: " +:+ pretty (positions_visited summary);
      "Drills Earned: " +:+ pretty (total_drills summary)]
     ++ match drills summary with
        | [] => []
        | _ =>
            [LF +:+ rule; "YOUR DRILL PROGRAM:"; rule]
            ++ mjoin (imap (λ i, drill_lines (S i)) (drills summary))
        end).

(** ** The sample graph ([bjj_domain.py], lines 107-279)

    The probabilities are the binary64 values of the decimal literals. *)

Definition closed_guard : Position :=
  {| id := "closed_guard";
     name := "Closed Guard";
     description := "Bottom player has legs locked around opponent's waist";
     advantages := ["Control opponent's posture"%string; "Can break posture"%string; "Multiple attack options"%string];
     common_mistakes := ["Flat back"%string; "Not breaking posture"%string; "Passive play"%string];
     default_drills :=
       [{| drill_name := "Posture Break Drill";
           drill_description := "Practice breaking opponent's posture from closed guard";
           repetitions := 10;
           focus_points := ["Pull down on neck"%string; "Extend hips"%string; "Control sleeves"%string] |}] |}.

Definition broken_posture : Position :=
  {| id := "broken_posture";
     name := "Broken Posture in Guard";
     description := "Opponent's posture is broken, chest close to guard player";
     advantages := ["Can setup submissions"%string; "Can setup sweeps"%string; "Opponent limited movement"%string];
     common_mistakes := ["Letting posture recover"%string; "Not transitioning to attack"%string];
     default_drills :=
       [{| drill_name := "Kimura Setup Drill";
           drill_description := "Practice kimura grip and control from broken posture";
           repetitions := 8;
           focus_points := ["Figure-4 grip"%string; "Control wrist"%string; "Hip out"%string] |}] |}.

Definition kimura_position : Position :=
  {| id := "kimura_position";
     name := "Kimura Position";
     description := "Figure-4 grip secured on opponent's arm";
     advantages := ["Submission threat"%string; "Can sweep"%string; "Strong control"%string];
     common_mistakes := ["Losing grip"%string; "Not using hips"%string; "Poor angle"%string];
     default_drills :=
       [{| drill_name := "Kimura Finish Drill";
           drill_description := "Practice finishing kimura from guard";
           repetitions := 10;
           focus_points := ["Maintain grip"%string; "Walk legs up"%string; "Apply pressure slowly"%string] |}] |}.

Definition sweep_position : Position :=
  {| id := "sweep_position";
     name := "Sweep Transition";
     description := "In process of off-balancing opponent for sweep";
     advantages := ["Momentum on your side"%string; "Can reverse position"%string; "Score points"%string];
     common_mistakes := ["Half-committed"%string; "Poor timing"%string; "Losing grips"%string];
     default_drills :=
       [{| drill_name := "Kimura Sweep Drill";
           drill_description := "Practice sweep using kimura grip";
           repetitions := 10;
           focus_points := ["Drive with legs"%string; "Pull with arms"%string; "Follow through"%string] |}] |}.

Definition mount : Position :=
  {| id := "mount";
     name := "Mount";
     description := "Top position with knees on ground, sitting on opponent's torso";
     advantages := ["Dominant position"%string; "Many submission options"%string; "Point scoring position"%string];
     common_mistakes := ["Too high"%string; "Poor base"%string; "Not controlling arms"%string];
     default_drills :=
       [{| drill_name := "Mount Maintenance Drill";
           drill_description := "Practice maintaining mount against escape attempts";
           repetitions := 5;
           focus_points := ["Wide base"%string; "Heavy hips"%string; "Control head"%string] |}] |}.

(** probability 0.7 *)
Definition break_posture : Transition :=
  {| from_position := "closed_guard";
     to_position := "broken_posture";
     action := "Pull down on opponent's head while extending hips";
     opponent_reaction := "Opponent's posture breaks forward";
     probability := (3152519739159347 # 4503599627370496);
     decision_quality := GOOD;
     drill_prescription :=
       Some {| drill_name := "Posture Break Repetition Drill";
               drill_description := "Rapid fire posture breaks";
               repetitions := 15;
               focus_points := ["Timing"%string; "Hip extension"%string; "Grip strength"%string] |} |}.

(** probability 0.3 *)
Definition failed_posture_break : Transition :=
  {| from_position := "closed_guard";
     to_position := "closed_guard";
     action := "Weak posture break attempt";
     opponent_reaction := "Opponent maintains posture";
     probability := (5404319552844595 # 18014398509481984);
     decision_quality := POOR;
     drill_prescription :=
       Some {| drill_name := "Posture Break Fundamentals";
               drill_description := "Focus on proper mechanics of posture breaking";
               repetitions := 20;
               focus_points := ["Full extension"%string; "Strong grips"%string; "Core engagement"%string] |} |}.

(** probability 0.6 *)
Definition go_for_kimura : Transition :=
  {| from_position := "broken_posture";
     to_position := "kimura_position";
     action := "Trap arm and secure figure-4 grip";
     opponent_reaction := "Opponent's arm gets trapped";
     probability := (5404319552844595 # 9007199254740992);
     decision_quality := EXCELLENT;
     drill_prescription :=
       Some {| drill_name := "Kimura Entry Drill";
               drill_description := "Practice smooth entry to kimura grip";
               repetitions := 12;
               focus_points := ["Hand placement"%string; "Quick entry"%string; "Maintain chest control"%string] |} |}.

(** probability 0.5 *)
Definition go_for_sweep : Transition :=
  {| from_position := "kimura_position";
     to_position := "sweep_position";
     action := "Use kimura grip to off-balance and sweep";
     opponent_reaction := "Opponent gets swept";
     probability := (1 # 2);
     decision_quality := EXCELLENT;
     drill_prescription :=
       Some {| drill_name := "Kimura Sweep Chain";
               drill_description := "Practice kimura sweep with proper momentum";
               repetitions := 10;
               focus_points := ["Hip bump"%string; "Pull with grip"%string; "Come up on top"%string] |} |}.

(** probability 0.8 *)
Definition sweep_to_mount : Transition :=
  {| from_position := "sweep_position";
     to_position := "mount";
     action := "Complete the sweep and establish mount";
     opponent_reaction := "You achieve mount position";
     probability := (3602879701896397 # 4503599627370496);
     decision_quality := EXCELLENT;
     drill_prescription :=
       Some {| drill_name := "Sweep to Mount Transition";
               drill_description := "Practice smooth transition from sweep to mount";
               repetitions := 8;
               focus_points := ["Stay tight"%string; "Control head"%string; "Establish hooks"%string] |} |}.

Definition create_sample_graph : BJJGraph :=
  let graph := BJJGraph_init in
  let graph :=
    foldl (λ graph position, add_position position graph) graph
      [closed_guard; broken_posture; kimura_position; sweep_position; mount] in
  let graph := add_transition break_posture graph in
  let graph := add_transition failed_posture_break graph in
  let graph := add_transition go_for_kimura graph in
  let graph := add_transition go_for_sweep graph in
  let graph := add_transition sweep_to_mount graph in
  graph.

(** ** The command line ([cli.py])

    The process reads lines from [stdin] and writes chunks of text to
    [stdout]; [print] writes its argument and a line feed, [input] writes
    its prompt and takes the next line, raising [EOFError] when none is
    left. The two loops run on fuel; [get_user_choice] and
    [run_interactive_session] supply more than the lines left to read. The
    string methods [strip] and [lower], the conversion [int] ([None] for
    [ValueError]) and the float format are parameters. Interrupts are not
    modelled. *)

Inductive Exception :=
| EOFError
| KeyError (key : string)
| IndexError.

(** [str(e)] *)
Definition Exception_str (e : Exception) : string :=
  match e with
  | EOFError => "EOF when reading a line"
  | KeyError key => "'" +:+ key +:+ "'"
  | IndexError => "list index out of range"
  end.

Inductive Outcome (A : Type) :=
| Ok (a : A)
| Raise (e : Exception)
| OutOfFuel.
Arguments Ok {A} a.
Arguments Raise {A} e.
Arguments OutOfFuel {A}.

Record World := {
  stdin : list string;
  stdout : list string
}.

Definition IO (A : Type) : Type := World → Outcome A * World.

#[global] Instance io_ret : MRet IO := λ A a w, (Ok a, w).
#[global] Instance io_bind : MBind IO :=
  λ A B f m w,
    match m w with
    | (Ok a, w') => f a w'
    | (Raise e, w') => (Raise e, w')
    | (OutOfFuel, w') => (OutOfFuel, w')
    end.

Definition raise {A} (e : Exception) : IO A := λ w, (Raise e, w).
Definition out_of_fuel {A} : IO A := λ w, (OutOfFuel, w).

Definition write (s : string) (w : World) : World :=
  {| stdin := stdin w; stdout := stdout w ++ [s] |}.

(** [print(s)] *)
Definition print (s : string) : IO unit := λ w, (Ok (), write (s +:+ LF) w).

(** [input(prompt)] *)
Definition input (prompt : string) : IO string :=
  λ w,
    match stdin w with
    | [] => (Raise EOFError, write prompt w)
    | line :: rest =>
        (Ok line, {| stdin := rest; stdout := stdout w ++ [prompt] |})
    end.

(** the value of an expression that raises [e] when it has none *)
Definition value_or_raise {A} (e : Exception) (o : option A) : IO A :=
  match o with
  | Some a => mret a
  | None => raise e
  end.

(** [l[i]]: a negative index counts from the end *)
Definition getitem {A} (l : list A) (i : Z) : IO A :=
  let j := if bool_decide (i < 0)%Z then (i + Z.of_nat (length l))%Z else i in
  if bool_decide (0 ≤ j < Z.of_nat (length l))%Z then
    value_or_raise IndexError (l !! Z.to_nat j)
  else raise IndexError.

Definition quit_words : list string :=
  ["quit"%string; "exit"%string; "q"%string].

Definition print_welcome : IO unit :=
  print (LF +:+ rule);;
  print "BJJ DRILL-THROUGH NARRATIVE APP";;
  print rule;;
  print (LF +:+ "Welcome to the Brazilian Jiu-Jitsu training decision tree!");;
  print "Navigate through positions, explore opponent reactions,";;
  print "and earn drill prescriptions to improve your game.";;
  print (LF +:+ "Type 'quit' or 'exit' at any time to end the session.");;
  print rule.

Definition farewell : string :=
  "Thank you for training! Practice your drills! ðŸ¥‹".

Section cli.
Context (str_strip str_lower : string → string).
Context (int : string → option Z).
Context (format_percent : Q → string).

Fixpoint get_user_choice_loop (fuel : nat) (max_choice : Z) : IO Z :=
  match fuel with
  | 0 => out_of_fuel
  | S fuel' =>
      line ← input (LF +:+ "Select an action (1-" +:+ pretty max_choice
                    +:+ "), or 'quit' to end: ");
      let choice := str_lower (str_strip line) in
      if bool_decide (choice ∈ quit_words) then mret (-1)%Z
      else
        match int choice with
        | Some choice_num =>
            if bool_decide (1 ≤ choice_num ≤ max_choice)%Z then
              mret choice_num
            else
              print ("Please enter a number between 1 and "
                     +:+ pretty max_choice +:+ ".");;
              get_user_choice_loop fuel' max_choice
        | None =>
            print "Please enter a valid number or 'quit'.";;
            get_user_choice_loop fuel' max_choice
        end
  end.

Definition get_user_choice (max_choice : Z) : IO Z :=
  λ w, get_user_choice_loop (S (length (stdin w))) max_choice w.

(** The [while True] loop of [run_interactive_session]; its value is the
    session as the loop leaves it. *)
Fixpoint session_loop (fuel : nat) (session : NarrativeSession)
  : IO NarrativeSession :=
  match fuel with
  | 0 => out_of_fuel
  | S fuel' =>
      match get_current_position session with
      | None =>
          print (LF +:+ "Error: Invalid position state.");;
          mret session
      | Some current_pos =>
          print (format_position_display current_pos);;
          transitions ←
            value_or_raise (KeyError "data") (get_available_actions session);
          match transitions with
          | [] =>
              print (LF +:+ "You've reached a terminal position in this narrative.");;
              mret session
          | _ =>
              print (format_transitions_display format_percent transitions);;
              choice ← get_user_choice (Z.of_nat (length transitions));
              if bool_decide (choice = -1)%Z then
                print (LF +:+ "Ending session...");;
                mret session
              else
                selected_transition ← getitem transitions (choice - 1);
                let '((new_position, drill), session) :=
                  take_action selected_transition session in
                print (LF +:+ rule);;
                print ("RESULT: " +:+ opponent_reaction selected_transition);;
                print rule;;
                print (format_drill_display drill);;
                match new_position with
                | None =>
                    print (LF +:+ "Error: Unable to transition to new position.");;
                    mret session
                | Some new_position =>
                    print (LF +:+ "You are now in: " +:+ name new_position);;
                    line ← input (LF +:+ "Press Enter to continue, or type 'quit' to end: ");
                    let continue_choice := str_lower (str_strip line) in
                    if bool_decide (continue_choice ∈ quit_words) then
                      print (LF +:+ "Ending session...");;
                      mret session
                    else session_loop fuel' session
                end
          end
      end
  end.

(** The loop with fuel for all the lines left. *)
Definition session_loop_run (session : NarrativeSession)
  : IO NarrativeSession :=
  λ w, session_loop (S (length (stdin w))) session w.

Definition run_interactive_session : IO unit :=
  print_welcome;;
  let graph := create_sample_graph in
  let engine := {| engine_graph := graph |} in
  print (LF +:+ "Starting position: Closed Guard");;
  let session := start_session engine (Some "closed_guard"%string) in
  session ← session_loop_run session;
  print (format_session_summary session);;
  print (LF +:+ rule);;
  print farewell;;
  print (rule +:+ LF).

(** [main]: the exit status with the final world; a run that ends without
    [sys.exit] has status 0. *)
Definition main (w : World) : Z * World :=
  match run_interactive_session w with
  | (Ok _, w') => (0%Z, w')
  | (Raise e, w') =>
      (1%Z, write ((LF +:+ "An error occurred: " +:+ Exception_str e) +:+ LF) w')
  | (OutOfFuel, w') => (2%Z, w')  (* not reached: the fuel suffices *)
  end.
End cli.

(** Sample values of the parameters, for the concrete statements: lines
    that need no stripping or lower-casing, unsigned decimal numbers, and
    whole percentages. *)
Definition plain_line (s : string) : string := s.

Definition digit_value (c : Ascii.ascii) : option Z :=
  let n := Z.of_nat (Ascii.nat_of_ascii c) in
  if bool_decide (48 ≤ n ≤ 57)%Z then Some (n - 48)%Z else None.

Fixpoint decimal_go (acc : Z) (s : string) : option Z :=
  match s with
  | EmptyString => Some acc
  | String c s' => d ← digit_value c; decimal_go (10 * acc + d)%Z s'
  end.

Definition decimal (s : string) : option Z :=
  match s with
  | EmptyString => None
  | _ => decimal_go 0 s
  end.

Definition whole_percent (p : Q) : string :=
  let q := (p * 100 + (1 # 2))%Q in
  pretty (Qnum q / Z.pos (Qden q))%Z +:+ "%".

(** What [get_user_choice] makes of one line: the value it returns for it,
    or [None] when it asks again. *)
Definition line_choice (str_strip str_lower : string → string)
  (int : string → option Z) (max_choice : Z) (line : string) : option Z :=
  let choice := str_lower (str_strip line) in
  if bool_decide (choice ∈ quit_words) then Some (-1)%Z
  else
    match int choice with
    | Some choice_num =>
        if bool_decide (1 ≤ choice_num ≤ max_choice)%Z then Some choice_num
        else None
    | None => None
    end.

(** A graph in which every added transition ends at an added position. *)
Definition closed_graph (ops : list GraphOp) : Prop :=
  Forall (λ t, to_position t ∈ id <$> added_positions ops)
    (added_transitions ops).

(** The operations [create_sample_graph] performs. *)
Definition sample_ops : list GraphOp :=
  (AddPosition <$> [closed_guard; broken_posture; kimura_position;
                    sweep_position; mount])
  ++ (AddTransition <$> [break_posture; failed_posture_break; go_for_kimura;
                         go_for_sweep; sweep_to_mount]).

(** * Properties *)

(** ** The session walk *)

Section session.
Implicit Types (s : NarrativeSession) (t : Transition) (ts : list Transition).

(** What one [take_action] does, as a closed form. *)
Lemma take_action_unfold s t :
  take_action t s =
    ((get_position (session_graph s) (to_position t), drill_prescription t),
     {| session_graph := session_graph s;
        current_position := to_position t;
        history := history s ++ [(current_position s, action t)];
        drills_earned := drills_earned s ++ option_list (drill_prescription t) |}).
Proof.
  unfold take_action, get_drill_for_transition.
  destruct s as [g cur h ds], t as [f to a r p q [d|]]; cbn.
  - reflexivity.
  - by rewrite app_nil_r.
Qed.

Lemma exec_take_action_graph s t :
  session_graph (exec (take_action t) s) = session_graph s.
Proof. unfold exec. by rewrite take_action_unfold. Qed.

Lemma exec_take_action_history s t :
  history (exec (take_action t) s)
  = history s ++ [(current_position s, action t)].
Proof. unfold exec. by rewrite take_action_unfold. Qed.

Lemma exec_take_action_drills s t :
  drills_earned (exec (take_action t) s)
  = drills_earned s ++ option_list (drill_prescription t).
Proof. unfold exec. by rewrite take_action_unfold. Qed.

Lemma take_actions_snoc ts t s :
  take_actions (ts ++ [t]) s = exec (take_action t) (take_actions ts s).
Proof. unfold take_actions. by rewrite foldl_snoc. Qed.

Lemma take_actions_graph ts s :
  session_graph (take_actions ts s) = session_graph s.
Proof.
  induction ts as [|t ts IH] using rev_ind; [done|].
  by rewrite take_actions_snoc, exec_take_action_graph.
Qed.

Lemma take_actions_labels ts s :
  (history (take_actions ts s)).*2 = (history s).*2 ++ (action <$> ts).
Proof.
  induction ts as [|t ts IH] using rev_ind.
  - by rewrite app_nil_r.
  - rewrite take_actions_snoc, exec_take_action_history, !fmap_app, IH.
    by rewrite <-app_assoc.
Qed.

Lemma take_actions_drills ts s :
  drills_earned (take_actions ts s)
  = drills_earned s ++ omap drill_prescription ts.
Proof.
  induction ts as [|t ts IH] using rev_ind.
  - by rewrite app_nil_r.
  - rewrite take_actions_snoc, exec_take_action_drills, IH, omap_app.
    rewrite <-app_assoc. by f_equal.
Qed.

Lemma actions_taken_labels s :
  actions_taken (get_session_summary s) = (history s).*2.
Proof. cbn. apply list_fmap_ext. by intros ? []. Qed.
End session.

(** C3: [take_action t], run on any session, appends the old current key
    with [t]'s action to the history, then appends [t]'s drill (when it has
    one) to the drills earned, then moves the current key to [t]'s
    destination, and returns the position found under the new key (or
    nothing) with the drill (or nothing). It is a total function: there is
    no failing outcome. *)
Theorem take_action_effects (s : NarrativeSession) (t : Transition) :
  let s1 := history_append (current_position s, action t) s in
  let s2 := from_option (λ d, drills_earned_append d s1) s1
              (drill_prescription t) in
  let s3 := set_current_position (to_position t) s2 in
  exec (take_action t) s = s3
  ∧ eval (take_action t) s
    = (get_position (session_graph s) (to_position t), drill_prescription t)
  ∧ history s3 = history s ++ [(current_position s, action t)]
  ∧ drills_earned s3 = drills_earned s ++ option_list (drill_prescription t)
  ∧ current_position s3 = to_position t
  ∧ session_graph s3 = session_graph s
  ∧ get_position (session_graph s) (to_position t)
    = positions (session_graph s) !! to_position t.
Proof.
  unfold exec, eval. rewrite take_action_unfold. cbn.
  destruct (drill_prescription t) as [d|]; cbn;
    rewrite ?app_nil_r; by repeat split.
Qed.

(** C4: after [take_action] was called once per element of [ts] on a fresh
    session, the summary counts [length ts + 1] positions, lists the action
    labels of [ts] in order, and reports the drills earned, which are the
    drills of [ts] in order with repetitions kept, together with their
    number. *)
Theorem summary_after_actions (e : NarrativeEngine) (start : option string)
  (ts : list Transition) :
  let s := take_actions ts (start_session e start) in
  let r := get_session_summary s in
  length (history s) = length ts
  ∧ positions_visited r = length ts + 1
  ∧ actions_taken r = (history s).*2
  ∧ actions_taken r = action <$> ts
  ∧ length (actions_taken r) = length ts
  ∧ total_drills r = length (drills_earned s)
  ∧ drills r = drills_earned s
  ∧ drills r = omap drill_prescription ts.
Proof.
  intros s r.
  assert (Hact : actions_taken r = action <$> ts).
  { unfold r. rewrite actions_taken_labels. unfold s.
    by rewrite take_actions_labels. }
  assert (Hlen : length (history s) = length ts).
  { rewrite <-(length_fmap snd (history s)), <-actions_taken_labels.
    fold r. by rewrite Hact, length_fmap. }
  split_and!.
  - exact Hlen.
  - cbn. by rewrite Hlen.
  - apply actions_taken_labels.
  - exact Hact.
  - by rewrite Hact, length_fmap.
  - reflexivity.
  - reflexivity.
  - cbn. unfold s. by rewrite take_actions_drills.
Qed.

(** The same drill prescribed by two transitions is reported twice. *)
Example summary_keeps_duplicate_drills :
  let d := sample_drill "armbar" in
  let t1 := sample_transition "a" "b" "pull" (1 # 2) (Some d) in
  let t2 := sample_transition "b" "a" "push" (1 # 2) (Some d) in
  drills (get_session_summary
            (take_actions [t1; t2] (start_session {| engine_graph := BJJGraph_init |} None)))
  = [d; d].
Proof. reflexivity. Qed.

(** C9: in every session reachable from a fresh one by [take_action] calls
    the drills earned are at most as many as the history entries, so the
    summary's [total_drills] never exceeds the length of [actions_taken]. *)
Theorem drills_bounded_by_history (g : BJJGraph) (start : string)
  (s : NarrativeSession) :
  reachable g start s →
  length (drills_earned s) ≤ length (history s)
  ∧ total_drills (get_session_summary s)
    ≤ length (actions_taken (get_session_summary s)).
Proof.
  intros Hs.
  assert (H : length (drills_earned s) ≤ length (history s)).
  { induction Hs as [|s t _ IH]; [done|].
    rewrite exec_take_action_history, exec_take_action_drills, !length_app.
    destruct (drill_prescription t); cbn; lia. }
  split; [done|]. rewrite actions_taken_labels, length_fmap. by cbn.
Qed.

Lemma drills_bounded_by_history_witness :
  let g := build [AddPosition (sample_position "a" "start")] in
  let t := sample_transition "a" "b" "pull" (1 # 2) (Some (sample_drill "armbar")) in
  let s := exec (take_action t) (NarrativeSession_init g "a") in
  reachable g "a" s
  ∧ length (drills_earned s) ≤ length (history s)
  ∧ total_drills (get_session_summary s)
    ≤ length (actions_taken (get_session_summary s)).
Proof.
  intros g t s.
  assert (Hs : reachable g "a" s) by (apply reachable_step, reachable_init).
  split; [exact Hs|]. exact (drills_bounded_by_history g "a" s Hs).
Defined.

(** C10: [take_action], once or any number of times, leaves the graph the
    session walks as it was: same position map, same transition list, same
    adjacency. *)
Theorem take_action_preserves_graph (s : NarrativeSession) (t : Transition)
  (ts : list Transition) :
  session_graph (exec (take_action t) s) = session_graph s
  ∧ positions (session_graph (exec (take_action t) s))
    = positions (session_graph s)
  ∧ transitions (session_graph (exec (take_action t) s))
    = transitions (session_graph s)
  ∧ graph (session_graph (exec (take_action t) s)) = graph (session_graph s)
  ∧ session_graph (take_actions ts s) = session_graph s.
Proof.
  rewrite exec_take_action_graph, take_actions_graph. by repeat split.
Qed.

(** ** The position map *)

(** C8: for a key that is not in the position map, [get_position] returns
    nothing and [get_position_drills] returns the empty list; both are
    total functions, so absence is an ordinary result. *)
Theorem absent_position_lookup (g : BJJGraph) (key : string) :
  positions g !! key = None →
  get_position g key = None ∧ get_position_drills g key = [].
Proof.
  intros Hk. unfold get_position_drills, get_position. by rewrite Hk.
Qed.

Lemma absent_position_lookup_witness :
  let g := build [AddPosition (sample_position "closed_guard" "start")] in
  positions g !! "mount"%string = None
  ∧ get_position g "mount" = None ∧ get_position_drills g "mount" = [].
Proof.
  intros g.
  assert (Hk : positions g !! "mount"%string = None) by reflexivity.
  split; [exact Hk|]. exact (absent_position_lookup g "mount" Hk).
Defined.

Lemma filter_none {A} (P : A → Prop) `{!∀ x, Decision (P x)} (l : list A) :
  (∀ x, x ∈ l → ¬ P x) → filter P l = [].
Proof.
  induction l as [|x l IH]; intros Hl; [done|].
  rewrite filter_cons_False by (apply Hl; left).
  apply IH. intros y Hy. apply Hl. by right.
Qed.

(** An association list with distinct keys that holds [(k, v)] holds no
    other entry under [k]. *)
Lemma filter_key_singleton {V} (l : list (string * V)) k v :
  NoDup l.*1 → (k, v) ∈ l → filter (λ kv, kv.1 = k) l = [(k, v)].
Proof.
  induction l as [|[k' v'] l IH]; intros Hnd Hin.
  - by apply elem_of_nil in Hin.
  - rewrite fmap_cons in Hnd. apply NoDup_cons in Hnd as [Hk' Hnd].
    apply elem_of_cons in Hin as [Heq|Hin].
    + simplify_eq. rewrite filter_cons_True by done. f_equal.
      apply filter_none. intros [k2 v2] Hin2 Heq. cbn in Heq.
      subst. apply Hk'. apply list_elem_of_fmap. by exists (k', v2).
    + rewrite filter_cons_False; [by apply IH|].
      cbn. intros ->. apply Hk'. apply list_elem_of_fmap. by exists (k, v).
Qed.

(** C5: after two positions with the same key were added, the position map
    has exactly one entry under that key, namely the second position, and
    is as large as after the first addition; [add_position] is a total
    function. *)
Theorem add_position_overwrites (g : BJJGraph) (p1 p2 : Position) :
  id p1 = id p2 →
  let g' := add_position p2 (add_position p1 g) in
  filter (λ kv, kv.1 = id p2) (map_to_list (positions g')) = [(id p2, p2)]
  ∧ get_position g' (id p2) = Some p2
  ∧ size (positions g') = size (positions (add_position p1 g))
  ∧ positions g' = positions (add_position p2 g).
Proof.
  intros Hid g'. split_and!.
  - apply filter_key_singleton; [apply NoDup_fst_map_to_list|].
    apply elem_of_map_to_list. cbn. apply lookup_insert_eq.
  - unfold get_position. cbn. apply lookup_insert_eq.
  - cbn. rewrite Hid, insert_insert_eq.
    by rewrite !map_size_insert.
  - cbn. by rewrite Hid, insert_insert_eq.
Qed.

Lemma add_position_overwrites_witness :
  let p1 := sample_position "mount" "first" in
  let p2 := sample_position "mount" "second" in
  let g' := add_position p2 (add_position p1 BJJGraph_init) in
  id p1 = id p2
  ∧ filter (λ kv, kv.1 = id p2) (map_to_list (positions g')) = [(id p2, p2)]
  ∧ get_position g' (id p2) = Some p2
  ∧ size (positions g') = size (positions (add_position p1 BJJGraph_init))
  ∧ positions g' = positions (add_position p2 BJJGraph_init).
Proof.
  intros p1 p2 g'.
  assert (Hid : id p1 = id p2) by reflexivity.
  split; [exact Hid|]. exact (add_position_overwrites BJJGraph_init p1 p2 Hid).
Defined.

(** ** Ordered dictionaries *)

Section ordered_dict_facts.
Context {V : Type}.
Implicit Types (d : list (string * V)) (k : string) (v : V).

Lemma od_get_set_eq k v d :
  OrderedDict.get k (OrderedDict.set k v d) = Some v.
Proof.
  induction d as [|[k' v'] d IH]; cbn.
  - by rewrite decide_True.
  - destruct (decide (k' = k)) as [->|Hne]; cbn.
    + by rewrite decide_True.
    + by rewrite decide_False.
Qed.

Lemma od_get_set_ne k k' v d :
  k ≠ k' → OrderedDict.get k' (OrderedDict.set k v d) = OrderedDict.get k' d.
Proof.
  intros Hne. induction d as [|[k2 v2] d IH]; cbn.
  - by rewrite decide_False.
  - destruct (decide (k2 = k)) as [->|Hne2]; cbn.
    + by rewrite !decide_False.
    + by rewrite IH.
Qed.

Lemma od_get_set k k' v d :
  OrderedDict.get k' (OrderedDict.set k v d)
  = if decide (k = k') then Some v else OrderedDict.get k' d.
Proof.
  destruct (decide (k = k')) as [->|Hne];
    [apply od_get_set_eq | by apply od_get_set_ne].
Qed.

Lemma od_contains_true k d :
  OrderedDict.contains k d = true ↔ is_Some (OrderedDict.get k d).
Proof. unfold OrderedDict.contains. apply bool_decide_eq_true. Qed.

Lemma od_contains_false k d :
  OrderedDict.contains k d = false ↔ OrderedDict.get k d = None.
Proof.
  unfold OrderedDict.contains. rewrite bool_decide_eq_false.
  by rewrite eq_None_not_Some.
Qed.

(** a key that is absent is appended *)
Lemma od_set_absent k v d :
  OrderedDict.get k d = None → OrderedDict.set k v d = d ++ [(k, v)].
Proof.
  induction d as [|[k' v'] d IH]; cbn; [done|].
  destruct (decide (k' = k)); [done|]. intros Hd. by rewrite IH.
Qed.

End ordered_dict_facts.

Lemma od_set_fmap {V W} (f : V → W) k v (d : list (string * V)) :
  (λ kv, (kv.1, f kv.2)) <$> OrderedDict.set k v d
  = OrderedDict.set k (f v) ((λ kv, (kv.1, f kv.2)) <$> d).
Proof.
  induction d as [|[k' v'] d IH]; cbn; [done|].
  destruct (decide (k' = k)); cbn; [done|]. by rewrite IH.
Qed.

Lemma od_get_fmap {V W} (f : V → W) k (d : list (string * V)) :
  OrderedDict.get k ((λ kv, (kv.1, f kv.2)) <$> d) = f <$> OrderedDict.get k d.
Proof.
  induction d as [|[k' v'] d IH]; cbn; [done|].
  by destruct (decide (k' = k)).
Qed.

(** ** The directed graph *)

Section digraph_facts.
Implicit Types (G : NX.DiGraph) (u v w n : string).

Lemma nx_get_touch G n w :
  OrderedDict.get w (NX.touch n G)
  = match OrderedDict.get w G with
    | Some e => Some e
    | None =>
        if decide (n = w) then Some {| NX.node_attr := ∅; NX.adj := [] |}
        else None
    end.
Proof.
  unfold NX.touch, NX.contains.
  destruct (OrderedDict.contains n G) eqn:Hn.
  - apply od_contains_true in Hn as [e He].
    destruct (OrderedDict.get w G) eqn:Hw; [done|].
    rewrite decide_False; [done|]. intros ->. congruence.
  - apply od_contains_false in Hn. rewrite od_get_set.
    destruct (decide (n = w)) as [->|]; [by rewrite Hn|].
    by destruct (OrderedDict.get w G).
Qed.

Lemma nx_adj_add_node G n attr w :
  NX.adj <$> OrderedDict.get w (NX.add_node n attr G)
  = if decide (n = w) then Some (adj_or_empty G n)
    else NX.adj <$> OrderedDict.get w G.
Proof.
  unfold NX.add_node, adj_or_empty.
  destruct (OrderedDict.get n G) eqn:Hn; rewrite od_get_set;
    by destruct (decide (n = w)).
Qed.

Lemma nx_adj_add_edge G u v attr w :
  NX.adj <$> OrderedDict.get w (NX.add_edge u v attr G)
  = if decide (u = w) then
      Some (OrderedDict.set v
              (attr ∪ default ∅ (OrderedDict.get v (adj_or_empty G u)))
              (adj_or_empty G u))
    else if decide (v = w) then Some (adj_or_empty G v)
    else NX.adj <$> OrderedDict.get w G.
Proof.
  unfold NX.add_edge, adj_or_empty.
  assert (Hu : ∃ e, OrderedDict.get u (NX.touch v (NX.touch u G)) = Some e
                    ∧ NX.adj e = from_option NX.adj [] (OrderedDict.get u G)).
  { rewrite !nx_get_touch. destruct (OrderedDict.get u G) as [e|]; [by eexists|].
    rewrite decide_True by done. by eexists. }
  destruct Hu as (e & -> & He). rewrite od_get_set, He.
  destruct (decide (u = w)) as [->|Hne]; cbn; [done|].
  rewrite !nx_get_touch. rewrite (decide_False (P := u = w)) by done.
  destruct (decide (v = w)) as [->|]; by destruct (OrderedDict.get w G).
Qed.

Lemma nx_contains_get G n :
  NX.contains G n = bool_decide (is_Some (NX.adj <$> OrderedDict.get n G)).
Proof.
  unfold NX.contains, OrderedDict.contains. apply bool_decide_ext.
  by rewrite fmap_is_Some.
Qed.
End digraph_facts.

(** ** The adjacency mirrors the transition list *)

Lemma leaving_snoc key ts t :
  leaving key (ts ++ [t])
  = leaving key ts ++ (if decide (from_position t = key) then [t] else []).
Proof. unfold leaving. by rewrite filter_app, filter_cons, filter_nil. Qed.

Lemma last_per_destination_snoc ts t :
  last_per_destination (ts ++ [t])
  = OrderedDict.set (to_position t) t (last_per_destination ts).
Proof. unfold last_per_destination. by rewrite foldl_snoc. Qed.

Lemma data_attr_overwrites (t : Transition) (old : option (gmap string Transition)) :
  (∀ m, old = Some m → ∃ t', m = {[ "data"%string := t' ]}) →
  {[ "data"%string := t ]} ∪ default ∅ old
  =@{gmap string Transition} {[ "data"%string := t ]}.
Proof.
  intros Hold. destruct old as [m|]; cbn.
  - destruct (Hold m eq_refl) as [t' ->].
    by rewrite <-insert_union_singleton_l, insert_singleton_eq.
  - by rewrite (right_id_L ∅ (∪)).
Qed.

Lemma graph_inv_adj g u :
  graph_inv g →
  adj_or_empty (graph g) u
  = edge_attrs <$> last_per_destination (leaving u (transitions g)).
Proof.
  intros Hinv. specialize (Hinv u). unfold adj_or_empty.
  destruct (OrderedDict.get u (graph g)) as [e|]; cbn in *; [done|].
  by destruct Hinv as [-> _].
Qed.

Lemma graph_inv_init : graph_inv BJJGraph_init.
Proof. intros u. cbn. by rewrite lookup_empty. Qed.

Lemma graph_inv_add_position p g :
  graph_inv g → graph_inv (add_position p g).
Proof.
  intros Hinv u. cbn. rewrite nx_adj_add_node.
  destruct (decide (id p = u)) as [<-|Hne].
  - by apply graph_inv_adj.
  - specialize (Hinv u).
    destruct (NX.adj <$> OrderedDict.get u (graph g)); [done|].
    by rewrite lookup_insert_ne.
Qed.

Lemma graph_inv_add_transition t g :
  graph_inv g → graph_inv (add_transition t g).
Proof.
  intros Hinv u. cbn. rewrite nx_adj_add_edge, leaving_snoc.
  destruct (decide (from_position t = u)) as [<-|Hne].
  - rewrite last_per_destination_snoc, graph_inv_adj by done.
    unfold edge_attrs at 3. rewrite od_set_fmap. f_equal.
    apply data_attr_overwrites. intros m.
    unfold edge_attrs. rewrite od_get_fmap.
    destruct (OrderedDict.get _ _); cbn; [|done]. intros [= <-]. by eexists.
  - rewrite app_nil_r. destruct (decide (to_position t = u)) as [<-|Hne'].
    + by apply graph_inv_adj.
    + apply Hinv.
Qed.

Lemma build_snoc ops op : build (ops ++ [op]) = apply_op (build ops) op.
Proof. unfold build. by rewrite foldl_snoc. Qed.

Lemma graph_inv_build ops : graph_inv (build ops).
Proof.
  induction ops as [|op ops IH] using rev_ind; [apply graph_inv_init|].
  rewrite build_snoc. destruct op; cbn;
    [by apply graph_inv_add_position | by apply graph_inv_add_transition].
Qed.

Lemma transitions_build ops : transitions (build ops) = added_transitions ops.
Proof.
  unfold added_transitions.
  induction ops as [|op ops IH] using rev_ind; [done|].
  rewrite build_snoc, omap_app. destruct op; cbn; rewrite IH; [|done].
  by rewrite app_nil_r.
Qed.

Lemma mapM_edge_data u (l : list (string * Transition)) :
  mapM (A := string * string * gmap string Transition)
    (λ '(_, to_pos, edge_data), edge_data !! "data"%string)
    ((λ '(nbr, dd), (u, nbr, dd)) <$> (edge_attrs <$> l))
  = Some l.*2.
Proof.
  induction l as [|[k t] l IH]; [done|].
  rewrite !fmap_cons. cbn. rewrite lookup_singleton_eq. cbn.
  cbn in IH. by rewrite IH.
Qed.

(** On a graph whose adjacency mirrors its transition list, the query never
    raises and returns, per destination reached from [key], the last
    transition added for it. *)
Lemma get_transitions_from_inv g key :
  graph_inv g →
  get_transitions_from g key
  = Some (last_per_destination (leaving key (transitions g))).*2.
Proof.
  intros Hinv. unfold get_transitions_from, NX.edges.
  rewrite nx_contains_get. specialize (Hinv key).
  destruct (OrderedDict.get key (graph g)) as [e|]; cbn in Hinv.
  - rewrite bool_decide_true by by eexists.
    cbn. unfold OrderedDict.items. rewrite Hinv. apply mapM_edge_data.
  - rewrite bool_decide_false by by intros [? ?].
    by destruct Hinv as [-> _].
Qed.

Lemma get_transitions_from_build ops key :
  get_transitions_from (build ops) key
  = Some (last_per_destination (leaving key (added_transitions ops))).*2.
Proof.
  rewrite <-transitions_build. apply get_transitions_from_inv, graph_inv_build.
Qed.

Lemma od_set_elem {V} k (v : V) d : (k, v) ∈ OrderedDict.set k v d.
Proof.
  induction d as [|[k' v'] d IH]; cbn; [by left|].
  destruct (decide (k' = k)) as [->|]; [by left | by right].
Qed.

Lemma od_set_elem_ne {V} k k' (v v' : V) d :
  k ≠ k' → (k, v) ∈ d → (k, v) ∈ OrderedDict.set k' v' d.
Proof.
  intros Hne. induction d as [|[k2 v2] d IH]; cbn.
  - intros Hin. by apply elem_of_nil in Hin.
  - intros [Heq|Hin]%elem_of_cons.
    + simplify_eq. rewrite decide_False by done. by left.
    + destruct (decide (k2 = k')); right; [done | by apply IH].
Qed.

Lemma od_get_keyed_None {V} (key : V → string) k (l : list V) :
  k ∉ key <$> l → OrderedDict.get k ((λ x, (key x, x)) <$> l) = None.
Proof.
  induction l as [|x l IH]; [done|].
  rewrite !fmap_cons, not_elem_of_cons. intros [Hne Hl]. cbn.
  rewrite decide_False by done. by apply IH.
Qed.

(** Where no two transitions of a list share a destination, the dictionary
    retains all of them in order. *)
Lemma last_per_destination_distinct ts :
  NoDup (to_position <$> ts) →
  last_per_destination ts = (λ t, (to_position t, t)) <$> ts.
Proof.
  induction ts as [|t ts IH] using rev_ind; [done|].
  rewrite fmap_app, NoDup_app. intros (Hnd & Hfresh & _).
  rewrite last_per_destination_snoc, IH, fmap_app by done. cbn.
  apply od_set_absent, od_get_keyed_None.
  intros Hin. apply (Hfresh _ Hin). by left.
Qed.

(** On a populated graph the query returns exactly the added transitions
    that leave [key], in the order added, provided no two of them share a
    destination. *)
Lemma get_transitions_from_distinct ops key :
  NoDup (to_position <$> leaving key (added_transitions ops)) →
  get_transitions_from (build ops) key
  = Some (leaving key (added_transitions ops)).
Proof.
  intros Hnd. rewrite get_transitions_from_build.
  rewrite last_per_destination_distinct by done.
  rewrite <-list_fmap_compose. f_equal. apply list_fmap_id.
Qed.

Lemma added_transitions_app ops1 ops2 :
  added_transitions (ops1 ++ ops2)
  = added_transitions ops1 ++ added_transitions ops2.
Proof. apply omap_app. Qed.

Lemma last_per_destination_keeps l1 l2 t :
  (∀ t', t' ∈ l2 → from_position t' = from_position t →
         to_position t' ≠ to_position t) →
  (to_position t, t)
  ∈ last_per_destination (leaving (from_position t) (l1 ++ t :: l2)).
Proof.
  induction l2 as [|t' l2 IH] using rev_ind; intros Hother.
  - rewrite leaving_snoc, decide_True, last_per_destination_snoc by done.
    apply od_set_elem.
  - rewrite app_comm_cons, (assoc_L (++)), leaving_snoc.
    assert (Hin : t' ∈ l2 ++ [t']) by (apply elem_of_app; right; by left).
    assert (IH' : (to_position t, t) ∈ last_per_destination
              (leaving (from_position t) (l1 ++ t :: l2))).
    { apply IH. intros t2 Ht2. apply Hother, elem_of_app. by left. }
    destruct (decide (from_position t' = from_position t)) as [Heq|Hne].
    + rewrite last_per_destination_snoc. apply od_set_elem_ne; [|done].
      intros Hto. by apply (Hother t' Hin Heq).
    + by rewrite app_nil_r.
Qed.

(** A transition stays listed until another one with the same source and
    destination is added. *)
Lemma get_transitions_from_persists ops1 ops2 t :
  (∀ t', t' ∈ added_transitions ops2 → from_position t' = from_position t →
         to_position t' ≠ to_position t) →
  ∃ l, get_transitions_from (build (ops1 ++ AddTransition t :: ops2))
         (from_position t) = Some l ∧ t ∈ l.
Proof.
  intros Hother. rewrite get_transitions_from_build. eexists; split; [done|].
  apply list_elem_of_fmap. exists (to_position t, t). split; [done|].
  rewrite added_transitions_app. by apply last_per_destination_keeps.
Qed.

(** ** The graph queries *)

(** C1: the code at two inputs. Two transitions added for the same source
    and destination: the query returns only the second, although both leave
    the key and both are in the transition list. A third transition for an
    earlier pair takes the place of the first one, ahead of a transition
    added before it. *)
Theorem parallel_transitions_replaced :
  let weak := sample_transition "closed_guard" "broken_posture" "weak pull"
                (3 # 10) None in
  let strong := sample_transition "closed_guard" "broken_posture" "strong pull"
                  (7 # 10) None in
  let hold := sample_transition "closed_guard" "closed_guard" "hold"
                (1 # 2) None in
  let start := AddPosition (sample_position "closed_guard" "start") in
  let g2 := build [start; AddTransition weak; AddTransition strong] in
  let g3 := build [start; AddTransition weak; AddTransition hold;
                   AddTransition strong] in
  leaving "closed_guard" (transitions g2) = [weak; strong]
  ∧ get_transitions_from g2 "closed_guard" = Some [strong]
  ∧ leaving "closed_guard" (transitions g3) = [weak; hold; strong]
  ∧ get_transitions_from g3 "closed_guard" = Some [strong; hold].
Proof. by vm_compute. Qed.

(** C6: a transition can be added whatever its end points are, positions or
    not: [add_transition] is total, leaves the position map alone, and the
    transition is then among those returned for its source. For a key that
    no added transition leaves, or that is no node of the graph, the query
    returns the empty list and raises nothing. *)
Theorem dangling_transition_listed (ops : list GraphOp) (t : Transition)
  (key : string) :
  leaving key (added_transitions ops) = []
  ∨ NX.contains (graph (build ops)) key = false →
  (∃ l, get_transitions_from (add_transition t (build ops)) (from_position t)
        = Some l ∧ t ∈ l)
  ∧ positions (add_transition t (build ops)) = positions (build ops)
  ∧ get_transitions_from (build ops) key = Some [].
Proof.
  intros Hkey. split_and!.
  - change (add_transition t (build ops))
      with (apply_op (build ops) (AddTransition t)).
    rewrite <-build_snoc. apply get_transitions_from_persists. intros t' Ht'.
    by apply elem_of_nil in Ht'.
  - done.
  - rewrite get_transitions_from_build.
    assert (Hnone : leaving key (added_transitions ops) = []).
    { destruct Hkey as [Hkey|Hkey]; [done|].
      pose proof (graph_inv_build ops key) as Hinv.
      rewrite nx_contains_get, bool_decide_eq_false in Hkey.
      rewrite <-transitions_build.
      destruct (NX.adj <$> OrderedDict.get key (graph (build ops)));
        [by destruct Hkey | by destruct Hinv]. }
    by rewrite Hnone.
Qed.

Lemma dangling_transition_listed_witness :
  let out := sample_transition "closed_guard" "ghost" "slip" (1 # 2) None in
  let ops := [AddPosition (sample_position "closed_guard" "start");
              AddTransition out] in
  let t := sample_transition "phantom" "closed_guard" "enter" (1 # 4)
             (Some (sample_drill "entry")) in
  (leaving "ghost" (added_transitions ops) = []
   ∨ NX.contains (graph (build ops)) "ghost" = false)
  ∧ get_position (add_transition t (build ops)) "phantom" = None
  ∧ get_position (add_transition t (build ops)) "ghost" = None
  ∧ (∃ l, get_transitions_from (add_transition t (build ops)) (from_position t)
          = Some l ∧ t ∈ l)
  ∧ positions (add_transition t (build ops)) = positions (build ops)
  ∧ get_transitions_from (build ops) "ghost" = Some [].
Proof.
  intros out ops t.
  assert (Hkey : leaving "ghost" (added_transitions ops) = []
                 ∨ NX.contains (graph (build ops)) "ghost" = false)
    by (left; reflexivity).
  split; [exact Hkey|]. split; [reflexivity|]. split; [reflexivity|].
  exact (dangling_transition_listed ops t "ghost" Hkey).
Defined.

(** C7: [start_session] builds the session from its arguments and checks
    nothing; left out, the start key is ["closed_guard"]. When the start key
    is no node of the graph (neither a position nor an end point of a
    transition), the current position is absent and the available actions
    are the empty list, without an exception. *)
Theorem dangling_start (ops : list GraphOp) (key : string) :
  NX.contains (graph (build ops)) key = false →
  let e := {| engine_graph := build ops |} in
  start_session e (Some key) = NarrativeSession_init (build ops) key
  ∧ start_session e None = NarrativeSession_init (build ops) "closed_guard"
  ∧ get_current_position (start_session e (Some key)) = None
  ∧ get_available_actions (start_session e (Some key)) = Some [].
Proof.
  intros Hkey e. pose proof (graph_inv_build ops key) as Hinv.
  rewrite nx_contains_get, bool_decide_eq_false in Hkey.
  destruct (NX.adj <$> OrderedDict.get key (graph (build ops)));
    [by destruct Hkey|]. destruct Hinv as [Hnone Hpos]. split_and!; try done.
  unfold get_available_actions. cbn.
  by rewrite get_transitions_from_inv, Hnone by apply graph_inv_build.
Qed.

Lemma dangling_start_witness :
  let ops := [AddPosition (sample_position "closed_guard" "start")] in
  let e := {| engine_graph := build ops |} in
  NX.contains (graph (build ops)) "nonexistent" = false
  ∧ start_session e (Some "nonexistent"%string)
    = NarrativeSession_init (build ops) "nonexistent"
  ∧ start_session e None = NarrativeSession_init (build ops) "closed_guard"
  ∧ get_current_position (start_session e (Some "nonexistent"%string)) = None
  ∧ get_available_actions (start_session e (Some "nonexistent"%string))
    = Some [].
Proof.
  intros ops e.
  assert (Hkey : NX.contains (graph (build ops)) "nonexistent" = false)
    by reflexivity.
  split; [exact Hkey|]. exact (dangling_start ops "nonexistent" Hkey).
Defined.

(** A start key that is no position but the source of a transition: the
    current position is absent, yet an action is available. *)
Example phantom_start_has_action :
  let t := sample_transition "phantom" "closed_guard" "enter" (1 # 4) None in
  let g := build [AddPosition (sample_position "closed_guard" "start");
                  AddTransition t] in
  let s := start_session {| engine_graph := g |} (Some "phantom"%string) in
  get_current_position s = None ∧ get_available_actions s = Some [t].
Proof. by vm_compute. Qed.

(** ** The stable sort *)

Lemma Qltb_lt x y : Qltb x y = true ↔ (x < y)%Q.
Proof.
  unfold Qltb. rewrite negb_true_iff, <-not_true_iff_false, Qle_bool_iff.
  split; [apply Qnot_le_lt | apply Qlt_not_le].
Qed.

Lemma Qltb_ge x y : Qltb x y = false ↔ (y <= x)%Q.
Proof. unfold Qltb. by rewrite negb_false_iff, Qle_bool_iff. Qed.

Section sorted_facts.
Context {A : Type} (key : A → Q).
Implicit Types (x y : A) (l : list A) (p : Q).

Lemma key_le_trans : Transitive (key_le key).
Proof. intros x y z. apply Qle_trans. Qed.

Lemma insert_stable_perm x l : insert_stable key x l ≡ₚ x :: l.
Proof.
  induction l as [|y l IH]; cbn; [done|].
  destruct (Qltb (key y) (key x)); [|done].
  by rewrite IH, Permutation_swap.
Qed.

Lemma sort_stable_perm l : sort_stable key l ≡ₚ l.
Proof.
  induction l as [|x l IH]; cbn; [done|].
  by rewrite insert_stable_perm, IH.
Qed.

Lemma insert_stable_sorted x l :
  StronglySorted (key_le key) l → StronglySorted (key_le key) (insert_stable key x l).
Proof.
  induction l as [|y l IH]; cbn; intros Hl.
  - repeat constructor.
  - apply StronglySorted_inv in Hl as [Hl Hy].
    destruct (Qltb (key y) (key x)) eqn:Hlt.
    + apply Qltb_lt, Qlt_le_weak in Hlt. constructor; [by apply IH|].
      rewrite insert_stable_perm. by constructor.
    + apply Qltb_ge in Hlt. constructor; [by constructor|].
      constructor; [done|]. eapply Forall_impl; [exact Hy|].
      intros z Hz. exact (key_le_trans _ _ _ Hlt Hz).
Qed.

Lemma sort_stable_sorted l : StronglySorted (key_le key) (sort_stable key l).
Proof.
  induction l as [|x l IH]; cbn; [constructor|].
  by apply insert_stable_sorted.
Qed.

Lemma insert_stable_filter p x l :
  filter (λ a, (key a == p)%Q) (insert_stable key x l)
  = filter (λ a, (key a == p)%Q) (x :: l).
Proof.
  induction l as [|y l IH]; cbn -[filter]; [done|].
  destruct (Qltb (key y) (key x)) eqn:Hlt; [|done].
  apply Qltb_lt in Hlt. rewrite (filter_cons _ y), IH, !filter_cons.
  destruct (decide (key y == p)%Q) as [Hy|Hy]; [|done].
  destruct (decide (key x == p)%Q) as [Hx|Hx]; [|done].
  exfalso. rewrite Hy, Hx in Hlt. by apply Qlt_irrefl in Hlt.
Qed.

Lemma sort_stable_filter p l :
  filter (λ a, (key a == p)%Q) (sort_stable key l)
  = filter (λ a, (key a == p)%Q) l.
Proof.
  induction l as [|x l IH]; [done|].
  change (sort_stable key (x :: l))
    with (insert_stable key x (sort_stable key l)).
  by rewrite insert_stable_filter, !filter_cons, IH.
Qed.

Lemma StronglySorted_reverse (R : relation A) l :
  StronglySorted R l → StronglySorted (flip R) (reverse l).
Proof.
  induction 1 as [|x l Hl IH Hx]; [constructor|].
  rewrite reverse_cons. apply StronglySorted_app; split_and!.
  - intros y z Hy ->%list_elem_of_singleton.
    rewrite Forall_forall in Hx. apply Hx. by apply elem_of_reverse.
  - done.
  - repeat constructor.
Qed.

(** [sorted(l, key=key, reverse=True)] is a rearrangement of [l] in
    descending key order in which equal keys keep their order. *)
Lemma sorted_reverse_spec l :
  sorted key true l ≡ₚ l
  ∧ StronglySorted (flip (key_le key)) (sorted key true l)
  ∧ ∀ p, filter (λ a, (key a == p)%Q) (sorted key true l)
         = filter (λ a, (key a == p)%Q) l.
Proof.
  unfold sorted. split_and!.
  - by rewrite reverse_Permutation, sort_stable_perm, reverse_Permutation.
  - apply StronglySorted_reverse, sort_stable_sorted.
  - intros p.
    by rewrite filter_reverse, sort_stable_filter, <-filter_reverse,
      reverse_involutive.
Qed.
End sorted_facts.

(** C2: in every session over a populated graph, [get_available_actions]
    returns the transitions [get_transitions_from] gives for the current
    key, rearranged in descending order of probability, with transitions of
    equal probability in the order the graph gave them. Transitions A (0.3),
    B (0.7), C (0.7), added in that order, come back as B, C, A. *)
Theorem available_actions_sorted (ops : list GraphOp) (cur : string)
  (h : list (string * string)) (ds : list DrillPrescription) :
  let s := {| session_graph := build ops; current_position := cur;
              history := h; drills_earned := ds |} in
  let A := sample_transition "closed_guard" "open_guard" "A" (3 # 10) None in
  let B := sample_transition "closed_guard" "broken_posture" "B" (7 # 10) None in
  let C := sample_transition "closed_guard" "closed_guard" "C" (7 # 10) None in
  (∃ l out,
      get_transitions_from (build ops) cur = Some l
      ∧ get_available_actions s = Some out
      ∧ out = sorted probability true l
      ∧ out ≡ₚ l
      ∧ StronglySorted (flip (key_le probability)) out
      ∧ ∀ p, with_probability p out = with_probability p l)
  ∧ get_transitions_from
      (build [AddTransition A; AddTransition B; AddTransition C]) "closed_guard"
    = Some [A; B; C]
  ∧ get_available_actions
      (NarrativeSession_init
         (build [AddTransition A; AddTransition B; AddTransition C])
         "closed_guard")
    = Some [B; C; A].
Proof.
  intros s A B C. split; [|by vm_compute].
  destruct (sorted_reverse_spec probability
              (last_per_destination (leaving cur (added_transitions ops))).*2)
    as (Hperm & Hsorted & Hstable).
  eexists _, _. split_and!.
  - apply get_transitions_from_build.
  - unfold get_available_actions. cbn. by rewrite get_transitions_from_build.
  - done.
  - done.
  - done.
  - done.
Qed.

(** * Further properties *)

(** ** Position lookup on a populated graph *)

Lemma added_positions_snoc ops op :
  added_positions (ops ++ [op])
  = added_positions ops ++ match op with AddPosition p => [p] | _ => [] end.
Proof. unfold added_positions. rewrite omap_app. by destruct op. Qed.

Lemma last_filter_snoc {A} (P : A → Prop) `{!∀ x, Decision (P x)} l x :
  last (filter P (l ++ [x]))
  = if decide (P x) then Some x else last (filter P l).
Proof.
  rewrite filter_app, filter_cons, filter_nil.
  destruct (decide (P x)); [apply last_snoc | by rewrite app_nil_r].
Qed.

Lemma get_position_build ops key :
  get_position (build ops) key
  = last (filter (λ p, id p = key) (added_positions ops)).
Proof.
  induction ops as [|op ops IH] using rev_ind; [done|].
  rewrite build_snoc, added_positions_snoc. destruct op as [p|t]; cbn.
  - rewrite last_filter_snoc. unfold get_position in *. cbn.
    destruct (decide (id p = key)) as [<-|Hne].
    + by rewrite lookup_insert_eq.
    + by rewrite lookup_insert_ne.
  - by rewrite app_nil_r.
Qed.

(** [get_position] returns the position added last under the key, whatever
    else was added in between, and [get_position_drills] the default drills
    of that position. *)
Theorem get_position_last_write (ops : list GraphOp) (key : string) :
  get_position (build ops) key
  = last (filter (λ p, id p = key) (added_positions ops))
  ∧ get_position_drills (build ops) key
    = from_option default_drills []
        (last (filter (λ p, id p = key) (added_positions ops))).
Proof.
  split; [apply get_position_build|]. unfold get_position_drills.
  rewrite get_position_build. by destruct (last _).
Qed.

(** ** The answer of [get_transitions_from] on a populated graph *)

Lemma first_occurrences_elem k l : k ∈ first_occurrences l ↔ k ∈ l.
Proof.
  induction l as [|x l IH]; [done|]. cbn -[filter].
  rewrite !elem_of_cons, list_elem_of_filter, IH.
  destruct (decide (k = x)); tauto.
Qed.

Lemma first_occurrences_NoDup l : NoDup (first_occurrences l).
Proof.
  induction l as [|x l IH]; [constructor|]. cbn -[filter].
  apply NoDup_cons. split; [|by apply NoDup_filter].
  rewrite list_elem_of_filter. by intros [? _].
Qed.

Lemma first_occurrences_snoc l k :
  first_occurrences (l ++ [k])
  = if decide (k ∈ l) then first_occurrences l else first_occurrences l ++ [k].
Proof.
  induction l as [|x l IH].
  { cbn -[filter]. rewrite decide_False; [done | apply not_elem_of_nil]. }
  change (first_occurrences ((x :: l) ++ [k]))
    with (x :: filter (λ k', k' ≠ x) (first_occurrences (l ++ [k]))).
  change (first_occurrences (x :: l))
    with (x :: filter (λ k', k' ≠ x) (first_occurrences l)).
  rewrite IH. destruct (decide (k = x)) as [->|Hne].
  - rewrite (decide_True (P := x ∈ x :: l)) by left.
    destruct (decide (x ∈ l)); [done|].
    rewrite filter_app, filter_cons_False, filter_nil, app_nil_r; [done|].
    by intros ?.
  - destruct (decide (k ∈ l)) as [Hin|Hnin].
    + by rewrite decide_True by by right.
    + rewrite decide_False by (rewrite elem_of_cons; tauto).
      by rewrite filter_app, filter_cons_True, filter_nil.
Qed.

Lemma od_keys_set {V} k (v : V) d :
  OrderedDict.keys (OrderedDict.set k v d)
  = if decide (k ∈ OrderedDict.keys d) then OrderedDict.keys d
    else OrderedDict.keys d ++ [k].
Proof.
  unfold OrderedDict.keys. induction d as [|[k' v'] d IH]; cbn.
  { rewrite decide_False; [done | apply not_elem_of_nil]. }
  destruct (decide (k' = k)) as [->|Hne]; cbn.
  - by rewrite decide_True by left.
  - rewrite IH. destruct (decide (k ∈ d.*1)) as [Hin|Hnin].
    + by rewrite decide_True by by right.
    + rewrite decide_False; [done|]. rewrite elem_of_cons.
      intros [?|?]; congruence.
Qed.

Lemma od_elem_get {V} k (v : V) d :
  NoDup (OrderedDict.keys d) → (k, v) ∈ d ↔ OrderedDict.get k d = Some v.
Proof.
  unfold OrderedDict.keys. induction d as [|[k' v'] d IH]; cbn; intros Hnd.
  - split; [intros Hin; by apply elem_of_nil in Hin | done].
  - apply NoDup_cons in Hnd as [Hk' Hnd]. rewrite elem_of_cons.
    destruct (decide (k' = k)) as [->|Hne].
    + split; [|intros [= ->]; by left]. intros [[= ->]|Hin]; [done|].
      destruct Hk'. apply list_elem_of_fmap. by exists (k, v).
    + rewrite <-IH by done. split; [|by right].
      intros [[= ? ?]|?]; [congruence | done].
Qed.

Lemma last_per_destination_keys ts :
  OrderedDict.keys (last_per_destination ts)
  = first_occurrences (to_position <$> ts).
Proof.
  induction ts as [|t ts IH] using rev_ind; [done|].
  rewrite last_per_destination_snoc, od_keys_set, fmap_app, IH.
  cbn [fmap list_fmap]. rewrite first_occurrences_snoc.
  destruct (decide (to_position t ∈ to_position <$> ts)) as [Hin|Hnin].
  - by rewrite decide_True by by apply first_occurrences_elem.
  - rewrite decide_False; [done|]. by rewrite first_occurrences_elem.
Qed.

Lemma last_per_destination_get ts k :
  OrderedDict.get k (last_per_destination ts)
  = last (filter (λ t, to_position t = k) ts).
Proof.
  induction ts as [|t ts IH] using rev_ind; [done|].
  rewrite last_per_destination_snoc, od_get_set, last_filter_snoc, IH.
  by destruct (decide (to_position t = k)).
Qed.

Lemma last_filter_Some {A} (P : A → Prop) `{!∀ x, Decision (P x)} l x :
  last (filter P l) = Some x → P x ∧ x ∈ l.
Proof.
  intros Hl. assert (Hin : x ∈ filter P l).
  { apply last_Some in Hl as [l' ->]. apply elem_of_app. right. by left. }
  by apply list_elem_of_filter in Hin.
Qed.

Lemma last_per_destination_elem ts k t :
  (k, t) ∈ last_per_destination ts
  ↔ last (filter (λ t', to_position t' = k) ts) = Some t.
Proof.
  rewrite od_elem_get, last_per_destination_get; [done|].
  rewrite last_per_destination_keys. apply first_occurrences_NoDup.
Qed.


Lemma last_per_destination_value ts k t :
  (k, t) ∈ last_per_destination ts → to_position t = k ∧ t ∈ ts.
Proof.
  intros Hin. apply last_per_destination_elem in Hin.
  by apply last_filter_Some in Hin.
Qed.

(** The answer has one transition per destination reached from [key], the
    destinations come in the order in which they were first used, and every
    transition of the answer was added with source [key]. *)
Theorem transitions_from_shape (ops : list GraphOp) (key : string) :
  ∃ l, get_transitions_from (build ops) key = Some l
       ∧ to_position <$> l
         = first_occurrences
             (to_position <$> leaving key (added_transitions ops))
       ∧ NoDup (to_position <$> l)
       ∧ Forall (λ t, from_position t = key ∧ t ∈ added_transitions ops) l.
Proof.
  set (L := leaving key (added_transitions ops)).
  pose proof (last_per_destination_value L) as Hval.
  assert (Hkeys : to_position <$> (last_per_destination L).*2
                  = first_occurrences (to_position <$> L)).
  { rewrite <-last_per_destination_keys. unfold OrderedDict.keys.
    rewrite <-list_fmap_compose. apply list_fmap_ext.
    intros i [k t] Hin%list_elem_of_lookup_2. cbn. by apply Hval. }
  exists (last_per_destination L).*2. split_and!.
  - apply get_transitions_from_build.
  - done.
  - rewrite Hkeys. apply first_occurrences_NoDup.
  - apply Forall_forall. intros t [[k t'] [-> Hin]]%list_elem_of_fmap. cbn.
    apply Hval in Hin as [_ Hin]. unfold L, leaving in Hin.
    by apply list_elem_of_filter in Hin.
Qed.

(** A transition is in the answer exactly when it is the last one added
    with source [key] and with its destination. *)
Theorem transitions_from_member (ops : list GraphOp) (key : string)
  (t : Transition) :
  ∃ l, get_transitions_from (build ops) key = Some l
       ∧ (t ∈ l
          ↔ last (filter (λ t', to_position t' = to_position t)
                    (leaving key (added_transitions ops))) = Some t).
Proof.
  eexists. split; [apply get_transitions_from_build|].
  rewrite list_elem_of_fmap. split.
  - intros [[k t'] [-> Hin]]. cbn.
    apply last_per_destination_elem in Hin.
    destruct (last_filter_Some _ _ _ Hin) as [<- _]. done.
  - intros Hlast. exists (to_position t, t). split; [done|].
    by apply last_per_destination_elem.
Qed.

Lemma get_transitions_from_distinct_witness :
  let pull := sample_transition "closed_guard" "broken_posture" "pull"
                (7 # 10) None in
  let hold := sample_transition "closed_guard" "closed_guard" "hold"
                (3 # 10) None in
  let away := sample_transition "mount" "closed_guard" "escape" (1 # 2) None in
  let ops := [AddTransition pull; AddTransition away; AddTransition hold] in
  NoDup (to_position <$> leaving "closed_guard" (added_transitions ops))
  ∧ get_transitions_from (build ops) "closed_guard" = Some [pull; hold].
Proof.
  intros pull hold away ops.
  assert (Hnd : NoDup (to_position <$>
                         leaving "closed_guard" (added_transitions ops))).
  { apply (bool_decide_unpack _). vm_compute. exact I. }
  split; [exact Hnd|].
  exact (get_transitions_from_distinct ops "closed_guard" Hnd).
Defined.

(** ** The nodes of the directed graph *)

Lemma nx_contains_add_node G n attr w :
  NX.contains (NX.add_node n attr G) w = true
  ↔ n = w ∨ NX.contains G w = true.
Proof.
  rewrite !nx_contains_get, !bool_decide_eq_true, nx_adj_add_node.
  destruct (decide (n = w)) as [->|Hne].
  - split; [by left | by eexists].
  - split; [by right | by intros [?|?]].
Qed.

Lemma nx_contains_add_edge G u v attr w :
  NX.contains (NX.add_edge u v attr G) w = true
  ↔ u = w ∨ v = w ∨ NX.contains G w = true.
Proof.
  rewrite !nx_contains_get, !bool_decide_eq_true, nx_adj_add_edge.
  destruct (decide (u = w)) as [->|Hu].
  - split; [by left | by eexists].
  - destruct (decide (v = w)) as [->|Hv].
    + split; [by right; left | by eexists].
    + split; [by right; right | by intros [?|[?|?]]].
Qed.

(** A key is a node of the directed graph exactly when a position was added
    under it or an added transition starts or ends at it: [add_transition]
    creates the nodes of its end points. *)
Theorem graph_nodes (ops : list GraphOp) (key : string) :
  NX.contains (graph (build ops)) key = true
  ↔ key ∈ id <$> added_positions ops
    ∨ key ∈ from_position <$> added_transitions ops
    ∨ key ∈ to_position <$> added_transitions ops.
Proof.
  induction ops as [|op ops IH] using rev_ind.
  - cbn. split; [done|]. intros [H|[H|H]]; by apply elem_of_nil in H.
  - rewrite build_snoc, added_positions_snoc, added_transitions_app, !fmap_app.
    rewrite !elem_of_app. destruct op as [p|t]; cbn -[NX.contains].
    + rewrite nx_contains_add_node, IH, list_elem_of_singleton, !elem_of_nil.
      split; [intros [ <- | [?|[?|?]]] | intros [[?| -> ]|[[?|[]]|[?|[]]]]]; tauto.
    + rewrite nx_contains_add_edge, IH, !list_elem_of_singleton, !elem_of_nil.
      split; [intros [ <- | [ <- | [?|[?|?]]]] | intros [[?|[]]|[[?| -> ]|[?| -> ]]]];
        tauto.
Qed.

(** ** The path a session records *)

Lemma take_actions_cons t ts s :
  take_actions (t :: ts) s = take_actions ts (exec (take_action t) s).
Proof. reflexivity. Qed.

Lemma exec_take_action_current s t :
  current_position (exec (take_action t) s) = to_position t.
Proof. unfold exec. by rewrite take_action_unfold. Qed.

(** After any sequence of actions the session stands at the destination of
    the last one (at its old key when there was none), and the keys it
    recorded are its old key followed by the destinations of all actions but
    the last, each paired with the action taken there; the sources of the
    transitions play no part. *)
Theorem walk_follows_destinations (s : NarrativeSession)
  (ts : list Transition) :
  current_position (take_actions ts s)
  = default (current_position s) (last (to_position <$> ts))
  ∧ history (take_actions ts s)
    = history s
      ++ zip (current_position s :: (to_position <$> ts)) (action <$> ts).
Proof.
  revert s. induction ts as [|t ts IH]; intros s.
  - split; [done|]. cbn. by rewrite app_nil_r.
  - rewrite take_actions_cons. destruct (IH (exec (take_action t) s)) as [-> ->].
    rewrite exec_take_action_current, exec_take_action_history.
    rewrite fmap_cons, last_cons. split.
    + by destruct (last (to_position <$> ts)).
    + by rewrite <-app_assoc.
Qed.

(** ** Walks along the offered actions *)

Lemma available_actions_build ops cur h ds :
  get_available_actions
    {| session_graph := build ops; current_position := cur;
       history := h; drills_earned := ds |}
  = Some (sorted probability true
            (last_per_destination (leaving cur (added_transitions ops))).*2).
Proof.
  unfold get_available_actions. cbn. by rewrite get_transitions_from_build.
Qed.

Lemma offered_action_source ops (s : NarrativeSession) out t :
  session_graph s = build ops →
  get_available_actions s = Some out → t ∈ out →
  from_position t = current_position s ∧ t ∈ added_transitions ops.
Proof.
  intros Hg Hout Hin. destruct s as [g cur h ds]. cbn in Hg. subst g.
  rewrite available_actions_build in Hout. injection Hout as <-.
  destruct (sorted_reverse_spec probability
              (last_per_destination (leaving cur (added_transitions ops))).*2)
    as (Hperm & _ & _).
  rewrite Hperm in Hin. apply list_elem_of_fmap in Hin as [[k t'] [-> Hin]].
  apply last_per_destination_value in Hin as [_ Hin]. cbn.
  unfold leaving in Hin. by apply list_elem_of_filter in Hin.
Qed.

(** In a session over a populated graph, a walk that always takes one of
    the offered actions records each transition under its own source: the
    history is the list of (source, action) pairs of the transitions taken,
    each transition starts where the one before ended, and all of them were
    added to the graph. *)
Theorem offered_walk_history (ops : list GraphOp) (s : NarrativeSession)
  (ts : list Transition) :
  session_graph s = build ops →
  offered_walk s ts →
  history (take_actions ts s)
  = history s ++ ((λ t, (from_position t, action t)) <$> ts)
  ∧ from_position <$> ts
    = take (length ts) (current_position s :: (to_position <$> ts))
  ∧ Forall (λ t, t ∈ added_transitions ops) ts.
Proof.
  intros Hg Hwalk. induction Hwalk as [s|s t ts out Hout Hin _ IH].
  - cbn. by rewrite app_nil_r.
  - destruct (offered_action_source ops s out t Hg Hout Hin) as [Hfrom Hadded].
    destruct IH as (IHh & IHc & IHa).
    { by rewrite exec_take_action_graph. }
    rewrite take_actions_cons, IHh, exec_take_action_history.
    rewrite exec_take_action_current in IHc. split_and!.
    + by rewrite fmap_cons, Hfrom, <-app_assoc.
    + rewrite !fmap_cons. cbn [length take]. by rewrite Hfrom, IHc.
    + by constructor.
Qed.

Lemma offered_walk_history_witness :
  let pull := sample_transition "closed_guard" "broken_posture" "pull"
                (7 # 10) (Some (sample_drill "pull")) in
  let hold := sample_transition "closed_guard" "closed_guard" "hold"
                (3 # 10) None in
  let ops := [AddPosition (sample_position "closed_guard" "start");
              AddTransition pull; AddTransition hold] in
  let s := NarrativeSession_init (build ops) "closed_guard" in
  let ts := [hold; pull] in
  session_graph s = build ops
  ∧ offered_walk s ts
  ∧ history (take_actions ts s)
    = history s ++ ((λ t, (from_position t, action t)) <$> ts)
  ∧ from_position <$> ts
    = take (length ts) (current_position s :: (to_position <$> ts))
  ∧ Forall (λ t, t ∈ added_transitions ops) ts.
Proof.
  intros pull hold ops s ts.
  assert (Hwalk : offered_walk s ts).
  { apply (offered_cons _ _ _ [pull; hold]); [reflexivity | by right; left |].
    apply (offered_cons _ _ _ [pull; hold]); [reflexivity | by left |].
    apply offered_nil. }
  split; [reflexivity|]. split; [exact Hwalk|].
  exact (offered_walk_history ops s ts eq_refl Hwalk).
Defined.

(** ** The end of a walk and the first offer *)

Lemma last_per_destination_nil_inv ts : last_per_destination ts = [] → ts = [].
Proof.
  destruct ts as [|t ts _] using rev_ind; [done|].
  rewrite last_per_destination_snoc.
  destruct (last_per_destination ts) as [|[k' t'] d]; cbn; [done|].
  by destruct (decide (k' = to_position t)).
Qed.

(** In a session over a populated graph no action is on offer exactly when
    no added transition leaves the current key. *)
Theorem no_action_iff_no_outgoing (ops : list GraphOp) (cur : string)
  (h : list (string * string)) (ds : list DrillPrescription) :
  get_available_actions
    {| session_graph := build ops; current_position := cur;
       history := h; drills_earned := ds |} = Some []
  ↔ leaving cur (added_transitions ops) = [].
Proof.
  rewrite available_actions_build.
  destruct (sorted_reverse_spec probability
              (last_per_destination (leaving cur (added_transitions ops))).*2)
    as (Hperm & _ & _).
  split.
  - intros Heq. apply (inj Some) in Heq. rewrite Heq in Hperm.
    apply Permutation_nil_l in Hperm. symmetry in Hperm.
    apply fmap_nil_inv in Hperm.
    by apply last_per_destination_nil_inv.
  - by intros ->.
Qed.

(** The action offered first has the highest probability of all offered
    actions. *)
Theorem first_offer_most_probable (s : NarrativeSession) (t0 : Transition)
  (rest : list Transition) :
  get_available_actions s = Some (t0 :: rest) →
  Forall (λ t, (probability t <= probability t0)%Q) rest.
Proof.
  unfold get_available_actions.
  destruct (get_transitions_from _ _) as [l|]; [|done]. cbn. intros Hout.
  apply (inj Some) in Hout.
  destruct (sorted_reverse_spec probability l) as (_ & Hsorted & _).
  unfold sorted in Hsorted. rewrite Hout in Hsorted.
  by apply StronglySorted_inv in Hsorted as [_ ?].
Qed.

Lemma first_offer_most_probable_witness :
  let pull := sample_transition "closed_guard" "broken_posture" "pull"
                (7 # 10) None in
  let hold := sample_transition "closed_guard" "closed_guard" "hold"
                (3 # 10) None in
  let s := NarrativeSession_init
             (build [AddTransition hold; AddTransition pull]) "closed_guard" in
  get_available_actions s = Some [pull; hold]
  ∧ Forall (λ t, (probability t <= probability pull)%Q) [hold].
Proof.
  intros pull hold s.
  assert (Hout : get_available_actions s = Some [pull; hold]) by reflexivity.
  split; [exact Hout|]. exact (first_offer_most_probable s pull [hold] Hout).
Defined.

(** ** Reading a choice *)

(** one step of a computation in [IO] *)
Ltac io_step :=
  unfold value_or_raise, mbind, io_bind, mret, io_ret, print, input, raise,
    out_of_fuel, write;
  cbn [stdin stdout].

Section choice.
Context (str_strip str_lower : string → string).
Context (int : string → option Z).

#[local] Abbreviation loop := (get_user_choice_loop str_strip str_lower int).
#[local] Abbreviation choice_of := (line_choice str_strip str_lower int).

Lemma get_user_choice_loop_nil fuel max_choice out :
  ∃ out', loop (S fuel) max_choice {| stdin := []; stdout := out |}
          = (Raise EOFError, {| stdin := []; stdout := out' |}).
Proof. cbn [get_user_choice_loop]. io_step. by eexists. Qed.

Lemma get_user_choice_loop_cons fuel max_choice line rest out :
  ∃ out',
    loop (S fuel) max_choice {| stdin := line :: rest; stdout := out |}
    = match choice_of max_choice line with
      | Some n => (Ok n, {| stdin := rest; stdout := out' |})
      | None => loop fuel max_choice {| stdin := rest; stdout := out' |}
      end.
Proof.
  unfold line_choice. cbn [get_user_choice_loop]. io_step.
  destruct (bool_decide (_ ∈ quit_words)); [by eexists|].
  destruct (int _) as [n|]; [|by eexists].
  destruct (bool_decide (1 ≤ n ≤ max_choice)%Z); by eexists.
Qed.

Lemma line_choice_range max_choice line n :
  choice_of max_choice line = Some n → n = (-1)%Z ∨ (1 ≤ n ≤ max_choice)%Z.
Proof.
  unfold line_choice. destruct (bool_decide (_ ∈ quit_words)).
  { intros [= <-]. by left. }
  destruct (int _) as [m|]; [|done]. case_bool_decide; [|done].
  intros [= <-]. by right.
Qed.

(** The loop on enough fuel: it returns the choice of the first line that
    has one and leaves the lines after it, or raises [EOFError] with all
    lines read when no line has a choice. *)
Lemma get_user_choice_loop_spec max_choice ins :
  ∀ fuel out, length ins < fuel →
    (∃ bad line rest n out',
        ins = bad ++ line :: rest
        ∧ Forall (λ l, choice_of max_choice l = None) bad
        ∧ choice_of max_choice line = Some n
        ∧ loop fuel max_choice {| stdin := ins; stdout := out |}
          = (Ok n, {| stdin := rest; stdout := out' |}))
    ∨ (∃ out',
        Forall (λ l, choice_of max_choice l = None) ins
        ∧ loop fuel max_choice {| stdin := ins; stdout := out |}
          = (Raise EOFError, {| stdin := []; stdout := out' |})).
Proof.
  induction ins as [|line ins IH]; intros [|fuel] out Hfuel; cbn in Hfuel;
    try lia.
  - right. destruct (get_user_choice_loop_nil fuel max_choice out) as [out' ->].
    by exists out'.
  - destruct (get_user_choice_loop_cons fuel max_choice line ins out)
      as [out' ->].
    destruct (choice_of max_choice line) as [n|] eqn:Hline.
    + left. by exists [], line, ins, n, out'.
    + destruct (IH fuel out' ltac:(lia))
        as [(bad & l & rest & n & out'' & -> & Hbad & Hl & ->)|(out'' & Hall & ->)].
      * left. exists (line :: bad), l, rest, n, out''. split_and!; try done.
        by constructor.
      * right. exists out''. split; [by constructor | done].
Qed.

Lemma get_user_choice_post max_choice w :
  match get_user_choice str_strip str_lower int max_choice w with
  | (Ok n, w') =>
      (n = (-1)%Z ∨ (1 ≤ n ≤ max_choice)%Z)
      ∧ length (stdin w') < length (stdin w)
  | (Raise e, w') => e = EOFError ∧ stdin w' = []
  | (OutOfFuel, _) => False
  end.
Proof.
  unfold get_user_choice. destruct w as [ins out]. cbn [stdin].
  destruct (get_user_choice_loop_spec max_choice ins (S (length ins)) out
              ltac:(lia))
    as [(bad & l & rest & n & out' & -> & _ & Hl & ->)|(out' & _ & ->)].
  - split; [by eapply line_choice_range|]. cbn. rewrite length_app. cbn. lia.
  - done.
Qed.
End choice.

(** [get_user_choice] returns either -1 or a number from 1 to [max_choice],
    and has then read at least one line. *)
Theorem get_user_choice_range (str_strip str_lower : string → string)
  (int : string → option Z) (max_choice n : Z) (w w' : World) :
  get_user_choice str_strip str_lower int max_choice w = (Ok n, w') →
  (n = (-1)%Z ∨ (1 ≤ n ≤ max_choice)%Z)
  ∧ length (stdin w') < length (stdin w).
Proof.
  intros Hrun.
  pose proof (get_user_choice_post str_strip str_lower int max_choice w) as Hp.
  by rewrite Hrun in Hp.
Qed.

Lemma get_user_choice_range_witness :
  let w := {| stdin := ["seven"; "7"; "2"; "1"]%string; stdout := [] |} in
  let r := get_user_choice plain_line plain_line decimal 3 w in
  r = (Ok 2%Z, r.2)
  ∧ (2%Z = (-1)%Z ∨ (1 ≤ 2 ≤ 3)%Z)
  ∧ length (stdin r.2) < length (stdin w).
Proof.
  intros w r.
  assert (Hrun : r = (Ok 2%Z, r.2)) by (vm_compute; reflexivity).
  split; [exact Hrun|].
  exact (get_user_choice_range plain_line plain_line decimal 3 2 w r.2 Hrun).
Defined.

(** [get_user_choice] skips every line that is neither a quit word nor a
    number in range, returns the value of the first line that is and leaves
    the lines after it unread; when no line qualifies it raises [EOFError]
    after reading them all. It never returns anything else. *)
Theorem get_user_choice_first_valid (str_strip str_lower : string → string)
  (int : string → option Z) (max_choice : Z) (w : World) :
  let choice_of := line_choice str_strip str_lower int max_choice in
  (∃ bad line rest n out',
      stdin w = bad ++ line :: rest
      ∧ Forall (λ l, choice_of l = None) bad
      ∧ choice_of line = Some n
      ∧ get_user_choice str_strip str_lower int max_choice w
        = (Ok n, {| stdin := rest; stdout := out' |}))
  ∨ (∃ out',
      Forall (λ l, choice_of l = None) (stdin w)
      ∧ get_user_choice str_strip str_lower int max_choice w
        = (Raise EOFError, {| stdin := []; stdout := out' |})).
Proof.
  intros choice_of. unfold get_user_choice. destruct w as [ins out].
  cbn [stdin].
  destruct (get_user_choice_loop_spec str_strip str_lower int max_choice ins
              (S (length ins)) out ltac:(lia))
    as [(bad & l & rest & n & out' & -> & Hbad & Hl & ->)|(out' & Hall & ->)].
  - left. by exists bad, l, rest, n, out'.
  - right. by exists out'.
Qed.

(** ** The interactive loop *)

Lemma getitem_in_range {A} (l : list A) (n : Z) (w : World) :
  (1 ≤ n ≤ Z.of_nat (length l))%Z →
  ∃ x, getitem l (n - 1) w = (Ok x, w) ∧ l !! Z.to_nat (n - 1) = Some x.
Proof.
  intros Hn. unfold getitem.
  cbv zeta. rewrite (bool_decide_false (n - 1 < 0)%Z) by lia.
  rewrite bool_decide_true by lia.
  assert (Hlt : Z.to_nat (n - 1) < length l) by lia.
  destruct (lookup_lt_is_Some_2 l (Z.to_nat (n - 1)) Hlt) as [x Hx].
  exists x. by rewrite Hx.
Qed.

Section loop.
Context (str_strip str_lower : string → string).
Context (int : string → option Z).
Context (format_percent : Q → string).

#[local] Abbreviation loop :=
  (session_loop str_strip str_lower int format_percent).

(** On enough fuel the loop over a populated graph ends either normally,
    with the session a walk along offered actions has produced, or with
    [EOFError] when the input has run out. *)
Lemma session_loop_post ops fuel :
  ∀ s w, session_graph s = build ops → length (stdin w) < fuel →
    match loop fuel s w with
    | (Ok s', w') => ∃ ts, offered_walk s ts ∧ s' = take_actions ts s
    | (Raise e, w') => e = EOFError ∧ stdin w' = []
    | (OutOfFuel, _) => False
    end.
Proof.
  induction fuel as [|fuel IH]; intros s w Hg Hfuel; [lia|].
  cbn [session_loop].
  destruct (get_current_position s) as [current_pos|].
  2:{ io_step. exists []. split; [constructor | done]. }
  destruct (get_available_actions s) as [l|] eqn:Hout.
  2:{ destruct s as [g cur h ds]. cbn in Hg. subst g.
      by rewrite available_actions_build in Hout. }
  io_step. destruct l as [|t0 l'] eqn:Hl.
  { exists []. split; [constructor | done]. }
  cbn [stdin stdout]. rewrite <-Hl in Hout |- *. clear Hl t0 l'.
  match goal with
  | |- context [get_user_choice _ _ _ ?m ?w1] =>
      pose proof (get_user_choice_post str_strip str_lower int m w1) as Hc;
      destruct (get_user_choice str_strip str_lower int m w1)
        as [[n|e|] w2]
  end; [|done|done].
  cbn [stdin] in Hc. destruct Hc as [Hn Hw2].
  case_bool_decide as Hquit.
  { exists []. split; [constructor | done]. }
  destruct Hn as [Hn|Hn]; [done|].
  destruct (getitem_in_range l n w2 Hn) as (t & -> & Ht).
  apply list_elem_of_lookup_2 in Ht.
  assert (Hstep : ∀ ts, offered_walk (exec (take_action t) s) ts →
                        offered_walk s (t :: ts)).
  { intros ts. by apply (offered_cons s t ts l). }
  destruct (take_action t s) as [[new_position drill] s1] eqn:Hta.
  assert (Hs1 : s1 = exec (take_action t) s) by (unfold exec; by rewrite Hta).
  subst s1. clear Hta. destruct new_position as [new_position|].
  2:{ exists [t]. split; [apply Hstep; constructor | done]. }
  cbn [stdin stdout]. destruct (stdin w2) as [|line rest] eqn:Hin.
  { done. }
  case_bool_decide as Hcont.
  { exists [t]. split; [apply Hstep; constructor | done]. }
  match goal with
  | |- context [loop fuel ?s1 ?w3] =>
      pose proof (IH s1 w3) as IH1; destruct (loop fuel s1 w3) as [[s'|e|] w4]
  end.
  - destruct IH1 as (ts & Hwalk & ->).
    { by rewrite exec_take_action_graph. }
    { cbn in *. lia. }
    exists (t :: ts). split; [by apply Hstep | done].
  - apply IH1; [by rewrite exec_take_action_graph | cbn in *; lia].
  - apply IH1; [by rewrite exec_take_action_graph | cbn in *; lia].
Qed.
End loop.

(** ** Walks in a graph without dangling destinations *)

Lemma get_position_is_Some ops key :
  is_Some (get_position (build ops) key) ↔ key ∈ id <$> added_positions ops.
Proof.
  rewrite get_position_build. split.
  - intros [p Hp]. apply last_filter_Some in Hp as [<- Hin].
    apply list_elem_of_fmap. by exists p.
  - intros (p & -> & Hin)%list_elem_of_fmap.
    assert (Hne : filter (λ p', id p' = id p) (added_positions ops) ≠ []).
    { intros Hnil. eapply filter_nil_not_elem_of; [exact Hnil| |exact Hin].
      done. }
    destruct (last _) as [q|] eqn:Hlast; [by eexists|].
    by apply last_None in Hlast.
Qed.

Lemma offered_walk_stays ops s ts :
  closed_graph ops →
  session_graph s = build ops →
  is_Some (get_current_position s) →
  offered_walk s ts →
  is_Some (get_current_position (take_actions ts s)).
Proof.
  intros Hclosed Hg Hcur Hwalk.
  induction Hwalk as [s|s t ts out Hout Hin _ IH]; [done|].
  rewrite take_actions_cons. apply IH.
  - by rewrite exec_take_action_graph.
  - unfold get_current_position.
    rewrite exec_take_action_graph, exec_take_action_current, Hg.
    apply get_position_is_Some.
    destruct (offered_action_source ops s out t Hg Hout Hin) as [_ Hadded].
    unfold closed_graph in Hclosed. rewrite Forall_forall in Hclosed.
    by apply Hclosed.
Qed.

(** When every added transition ends at an added position, a session that
    stands on a position still does after any walk along offered actions:
    [get_current_position] is never absent on the way. *)
Theorem closed_walk_on_positions (ops : list GraphOp) (s : NarrativeSession)
  (ts : list Transition) :
  closed_graph ops →
  session_graph s = build ops →
  is_Some (get_current_position s) →
  offered_walk s ts →
  is_Some (get_current_position (take_actions ts s)).
Proof. apply offered_walk_stays. Qed.

Lemma create_sample_graph_build : create_sample_graph = build sample_ops.
Proof. reflexivity. Qed.

Lemma sample_ops_closed : closed_graph sample_ops.
Proof.
  unfold closed_graph. repeat constructor;
    apply (bool_decide_unpack _); vm_compute; exact I.
Qed.

Lemma closed_walk_on_positions_witness :
  let s := NarrativeSession_init (build sample_ops) "closed_guard" in
  let ts := [failed_posture_break; break_posture; go_for_kimura] in
  closed_graph sample_ops
  ∧ session_graph s = build sample_ops
  ∧ is_Some (get_current_position s)
  ∧ offered_walk s ts
  ∧ is_Some (get_current_position (take_actions ts s)).
Proof.
  intros s ts.
  assert (Hcur : is_Some (get_current_position s)) by (by eexists).
  assert (Hwalk : offered_walk s ts).
  { apply (offered_cons _ _ _ [break_posture; failed_posture_break]);
      [reflexivity | by right; left |].
    apply (offered_cons _ _ _ [break_posture; failed_posture_break]);
      [reflexivity | by left |].
    apply (offered_cons _ _ _ [go_for_kimura]); [reflexivity | by left |].
    apply offered_nil. }
  split; [exact sample_ops_closed|]. split; [reflexivity|].
  split; [exact Hcur|]. split; [exact Hwalk|].
  exact (closed_walk_on_positions sample_ops s ts sample_ops_closed eq_refl
           Hcur Hwalk).
Defined.

(** ** The loop and the program as a whole *)

(** Over a populated graph the interactive loop, whatever the input, either
    ends normally in the session that a walk along offered actions
    produces, so every transition it takes was on the menu shown, or stops
    with [EOFError] once the input has run out; it raises no [KeyError] and
    no [IndexError], and the fuel it is given suffices. *)
Theorem session_loop_outcome (str_strip str_lower : string → string)
  (int : string → option Z) (format_percent : Q → string)
  (ops : list GraphOp) (s : NarrativeSession) (w : World) :
  session_graph s = build ops →
  match session_loop_run str_strip str_lower int format_percent s w with
  | (Ok s', w') => ∃ ts, offered_walk s ts ∧ s' = take_actions ts s
  | (Raise e, w') => e = EOFError ∧ stdin w' = []
  | (OutOfFuel, _) => False
  end.
Proof.
  intros Hg. unfold session_loop_run. apply (session_loop_post _ _ _ _ ops); [done|lia].
Qed.

Lemma session_loop_outcome_witness :
  let s := NarrativeSession_init (build sample_ops) "closed_guard" in
  let w := {| stdin := ["x"; "2"; "on"; "1"; "quit"]%string; stdout := [] |} in
  session_graph s = build sample_ops
  ∧ match session_loop_run plain_line plain_line decimal whole_percent s w with
    | (Ok s', w') => ∃ ts, offered_walk s ts ∧ s' = take_actions ts s
    | (Raise e, w') => e = EOFError ∧ stdin w' = []
    | (OutOfFuel, _) => False
    end.
Proof.
  intros s w. split; [reflexivity|].
  exact (session_loop_outcome plain_line plain_line decimal whole_percent
           sample_ops s w eq_refl).
Defined.

Lemma app_four {A} (x : list A) (a b c d : A) :
  (((x ++ [a]) ++ [b]) ++ [c]) ++ [d] = x ++ [a; b; c; d].
Proof. by rewrite <-!app_assoc. Qed.

(** The program, on any input: either it exits with status 0, having
    printed last the summary of a session that walked along offered actions
    from [closed_guard] and stands on a position, then the farewell; or the
    input ran out and it exits with status 1 after reporting the
    [EOFError]. *)
Theorem main_exit (str_strip str_lower : string → string)
  (int : string → option Z) (format_percent : Q → string) (w : World) :
  let r := main str_strip str_lower int format_percent w in
  let s := NarrativeSession_init create_sample_graph "closed_guard" in
  (r.1 = 0%Z
   ∧ ∃ ts out,
       offered_walk s ts
       ∧ is_Some (get_current_position (take_actions ts s))
       ∧ stdout r.2
         = out ++ [format_session_summary (take_actions ts s) +:+ LF;
                   (LF +:+ rule) +:+ LF;
                   farewell +:+ LF;
                   (rule +:+ LF) +:+ LF])
  ∨ (r.1 = 1%Z
     ∧ stdin r.2 = []
     ∧ last (stdout r.2)
       = Some ((LF +:+ "An error occurred: EOF when reading a line") +:+ LF)).
Proof.
  intros r s. unfold r, main, run_interactive_session, print_welcome.
  change (start_session {| engine_graph := create_sample_graph |}
            (Some "closed_guard"%string)) with s.
  io_step.
  match goal with
  | |- context [session_loop_run _ _ _ _ s ?w1] =>
      pose proof (session_loop_post str_strip str_lower int format_percent
                    sample_ops (S (length (stdin w1))) s w1
                    create_sample_graph_build ltac:(lia)) as Hloop;
      change (session_loop _ _ _ _ (S (length (stdin w1))) s w1)
        with (session_loop_run str_strip str_lower int format_percent s w1)
        in Hloop;
      destruct (session_loop_run str_strip str_lower int format_percent s w1)
        as [[s'|e|] w2]
  end; [| |done].
  - left. destruct Hloop as (ts & Hwalk & ->). split; [reflexivity|].
    exists ts, (stdout w2). split; [exact Hwalk|]. split.
    + apply (offered_walk_stays sample_ops);
        [apply sample_ops_closed | apply create_sample_graph_build
        | by eexists | exact Hwalk].
    + cbn [snd stdout]. apply app_four.
  - right. destruct Hloop as [-> Hin]. cbn [fst snd stdin stdout Exception_str].
    split; [reflexivity|]. split; [exact Hin|]. apply last_snoc.
Qed.

(** ** The menu and the selection *)

Lemma mjoin_imap_block {A B} (n : nat) (f : nat → A → list B) (l : list A)
  (k : nat) (x : A) :
  (∀ i y, length (f i y) = n) →
  l !! k = Some x →
  take n (drop (n * k) (mjoin (imap f l))) = f k x.
Proof.
  intros Hlen. revert f k Hlen.
  induction l as [|y l IH]; intros f k Hlen Hk; [done|].
  rewrite imap_cons.
  change (mjoin (f 0 y :: imap (f ∘ S) l))
    with (f 0 y ++ mjoin (imap (f ∘ S) l)).
  destruct k as [|k]; cbn in Hk.
  - injection Hk as ->. rewrite Nat.mul_0_r. cbn [drop].
    by apply take_app_length'.
  - replace (n * S k) with (length (f 0 y) + n * k) by (rewrite Hlen; lia).
    rewrite drop_app_add.
    rewrite (IH (f ∘ S) k); [done | intros; apply Hlen | done].
Qed.

Lemma length_mjoin_imap_block {A B} (n : nat) (f : nat → A → list B)
  (l : list A) :
  (∀ i y, length (f i y) = n) → length (mjoin (imap f l)) = n * length l.
Proof.
  revert f. induction l as [|y l IH]; intros f Hlen.
  - cbn. lia.
  - rewrite imap_cons.
    change (mjoin (f 0 y :: imap (f ∘ S) l))
      with (f 0 y ++ mjoin (imap (f ∘ S) l)).
    rewrite length_app, Hlen, (IH (f ∘ S)) by (intros; apply Hlen).
    cbn [length]. lia.
Qed.

(** The menu numbers the transitions from 1 in the order of the list:
    the display consists of three heading lines and four lines per
    transition, the block numbered [k + 1] describes the transition at
    index [k], and that transition is the one the loop fetches for the
    choice [k + 1]. *)
Theorem menu_number_selects (format_percent : Q → string)
  (transitions : list Transition) (k : nat) (t : Transition) (w : World) :
  transitions !! k = Some t →
  ∃ lines,
    format_transitions_display format_percent transitions = join LF lines
    ∧ length lines = 3 + 4 * length transitions
    ∧ take 4 (drop (3 + 4 * k) lines)
      = transition_lines format_percent (S k) t
    ∧ getitem transitions (Z.of_nat (S k) - 1) w = (Ok t, w).
Proof.
  intros Hk.
  set (f := λ i, transition_lines format_percent (S i)).
  assert (Hlen : ∀ i y, length (f i y) = 4) by done.
  exists ([LF +:+ rule; "AVAILABLE ACTIONS:"%string; rule]
          ++ mjoin (imap f transitions)).
  split_and!.
  - unfold format_transitions_display. by destruct transitions.
  - rewrite length_app, (length_mjoin_imap_block 4) by done. done.
  - change (3 + 4 * k)
      with (length [LF +:+ rule; "AVAILABLE ACTIONS:"%string; rule] + 4 * k).
    rewrite drop_app_add. by apply (mjoin_imap_block 4 f transitions k t).
  - assert (Hrange : (1 ≤ Z.of_nat (S k) ≤ Z.of_nat (length transitions))%Z).
    { apply lookup_lt_Some in Hk. lia. }
    destruct (getitem_in_range transitions (Z.of_nat (S k)) w Hrange)
      as (x & -> & Hx).
    replace (Z.to_nat (Z.of_nat (S k) - 1)) with k in Hx by lia.
    congruence.
Qed.

Lemma menu_number_selects_witness :
  let w := {| stdin := []; stdout := [] |} in
  let l := [break_posture; failed_posture_break] in
  l !! 1 = Some failed_posture_break
  ∧ ∃ lines,
      format_transitions_display whole_percent l = join LF lines
      ∧ length lines = 3 + 4 * length l
      ∧ take 4 (drop (3 + 4 * 1) lines)
        = transition_lines whole_percent 2 failed_posture_break
      ∧ getitem l (Z.of_nat 2 - 1) w = (Ok failed_posture_break, w).
Proof.
  intros w l. split; [reflexivity|].
  exact (menu_number_selects whole_percent l 1 failed_posture_break w eq_refl).
Defined.

(** The summary text shows the number of positions visited and of drills
    earned on its fourth and fifth line and, after three heading lines,
    lists the drills earned in the order earned, three lines each, numbered
    from 1. *)
Theorem summary_text_lists_drills (s : NarrativeSession) (k : nat)
  (d : DrillPrescription) :
  drills_earned s !! k = Some d →
  ∃ lines,
    format_session_summary s = join LF lines
    ∧ length lines = 8 + 3 * length (drills_earned s)
    ∧ lines !! 3
      = Some (LF +:+ "Positions Explored: " +:+ pretty (length (history s) + 1))
    ∧ lines !! 4
      = Some ("Drills Earned: " +:+ pretty (length (drills_earned s)))
    ∧ take 3 (drop (8 + 3 * k) lines) = drill_lines (S k) d.
Proof.
  intros Hk.
  set (f := λ i, drill_lines (S i)).
  assert (Hlen : ∀ i y, length (f i y) = 3) by done.
  set (head := [LF +:+ rule; "SESSION SUMMARY"%string; rule;
                LF +:+ "Positions Explored: "
                  +:+ pretty (length (history s) + 1);
                "Drills Earned: " +:+ pretty (length (drills_earned s));
                LF +:+ rule; "YOUR DRILL PROGRAM:"%string; rule]).
  exists (head ++ mjoin (imap f (drills_earned s))). split_and!.
  - unfold format_session_summary, get_session_summary.
    cbn [drills positions_visited total_drills].
    destruct (drills_earned s) as [|d0 ds]; [done|]. reflexivity.
  - rewrite length_app, (length_mjoin_imap_block 3) by done. done.
  - reflexivity.
  - reflexivity.
  - change (8 + 3 * k) with (length head + 3 * k).
    rewrite drop_app_add. by apply (mjoin_imap_block 3 f (drills_earned s) k d).
Qed.

Lemma summary_text_lists_drills_witness :
  let s := take_actions [break_posture; go_for_kimura]
             (NarrativeSession_init create_sample_graph "closed_guard") in
  let d := {| drill_name := "Kimura Entry Drill";
              drill_description := "Practice smooth entry to kimura grip";
              repetitions := 12;
              focus_points := ["Hand placement"%string; "Quick entry"%string;
                               "Maintain chest control"%string] |} in
  drills_earned s !! 1 = Some d
  ∧ ∃ lines,
      format_session_summary s = join LF lines
      ∧ length lines = 8 + 3 * length (drills_earned s)
      ∧ lines !! 3
        = Some (LF +:+ "Positions Explored: "
                  +:+ pretty (length (history s) + 1))
      ∧ lines !! 4
        = Some ("Drills Earned: " +:+ pretty (length (drills_earned s)))
      ∧ take 3 (drop (8 + 3 * 1) lines) = drill_lines 2 d.
Proof.
  intros s d.
  assert (Hk : drills_earned s !! 1 = Some d) by reflexivity.
  split; [exact Hk|]. exact (summary_text_lists_drills s 1 d Hk).
Defined.
